(** * Go-Logger: a shallow embedding of package [logger] and its properties

    The development follows the source file of package [logger] (the facade
    over zap and lumberjack) and [config/models.go].  Go strings are byte
    strings ([string]), [[]byte] is [list byte], [int] is [Z], a run-time
    panic is the [Panic] result of a small trace-and-panic monad, and the
    buffered channel behind [bufwriter] is a transition system with the
    blocking rules of Go channels.

    Part I holds the model, Part II the theorems. *)

From Stdlib Require Import ZArith List String Ascii Bool Lia.
From Stdlib.Strings Require Import Byte.
Import ListNotations.
Local Open Scope string_scope.
Local Open Scope list_scope.
Local Open Scope Z_scope.

(** * Part I: the model *)

(** ** Logging levels (source lines 15-44) *)

(** [zapcore.Level] with the seven levels the constants of the source name. *)
Inductive Level : Type :=
| DebugLevel | InfoLevel | WarnLevel | ErrorLevel
| DPanicLevel | PanicLevel | FatalLevel.

(** The numeric value of a level, as the comments of the [const] block give it. *)
Definition level_value (l : Level) : Z :=
  match l with
  | DebugLevel => -1
  | InfoLevel => 0
  | WarnLevel => 1
  | ErrorLevel => 2
  | DPanicLevel => 3
  | PanicLevel => 4
  | FatalLevel => 5
  end.

Definition INFO : Level := InfoLevel.
Definition WARN : Level := WarnLevel.
Definition ERROR : Level := ErrorLevel.
Definition DPANIC : Level := DPanicLevel.
Definition PANIC : Level := PanicLevel.
Definition FATAL : Level := FatalLevel.
Definition DEBUG : Level := DebugLevel.

(** [GetLevel]: the [switch] on the level string, case by case, in order. *)
Definition GetLevel (l : string) : Level :=
  if String.eqb l "INFO" then INFO
  else if String.eqb l "WARN" then WARN
  else if String.eqb l "ERROR" then ERROR
  else if String.eqb l "DPANIC" then PANIC
  else if String.eqb l "PANIC" then PANIC
  else if String.eqb l "FATAL" then FATAL
  else if String.eqb l "DEBUG" then DEBUG
  else INFO.

(** The fixed enumeration of level names. *)
Definition level_names : list string :=
  ["INFO"; "WARN"; "ERROR"; "DPANIC"; "PANIC"; "FATAL"; "DEBUG"].

(** ** Configuration ([config/models.go]) *)

Module config.

(** [config.Logger], field by field. *)
Record Logger : Type := mkLogger {
  LogFileName : string;
  LoggingLevel : string;
  LogFileSizeCappingInMBs : Z;
  MaxLogBackupsCount : Z;
  MaxOldLogRetentionInDays : Z;
  OldLogsCompressionRequired : bool
}.

(** [config.Config], which wraps a [Logger]. *)
Record Config : Type := mkConfig { Config_Logger : Logger }.

End config.

(** ** The external libraries, as far as the source touches them *)

Module lumberjack.

(** [lumberjack.Logger]: the fields the source sets; a field a composite
    literal leaves out has its zero value. *)
Record Logger : Type := mkLogger {
  Filename : string;
  MaxSize : Z;
  MaxBackups : Z;
  MaxAge : Z;
  Compress : bool
}.

End lumberjack.

Module zap.

(** [zap.Field]: the three members the source fills in. *)
Record Field : Type := mkField {
  Key : string;
  Type_ : Z;
  String_ : string
}.

Inductive LevelEncoder : Type := CapitalLevelEncoder.
Inductive TimeEncoder : Type := ISO8601TimeEncoder.
Inductive CallerEncoder : Type := FullCallerEncoder.

(** [zapcore.DefaultLineEnding] is a single line feed. *)
Definition DefaultLineEnding : string := String (ascii_of_nat 10) EmptyString.

Record EncoderConfig : Type := mkEncoderConfig {
  MessageKey : string;
  LevelKey : string;
  EncodeLevel : LevelEncoder;
  TimeKey : string;
  EncodeTime : TimeEncoder;
  CallerKey : string;
  EncodeCaller : CallerEncoder;
  LineEnding : string
}.

(** [zap.Config]; [Level_] is the level held by the atomic level. *)
Record Config : Type := mkConfig {
  Encoding : string;
  Level_ : Level;
  OutputPaths : list string;
  ErrorOutputPaths : list string;
  EncoderConfig_ : EncoderConfig
}.

(** A [*zap.Logger]: built by [Config.Build] from a configuration, or the
    logger of [zap.NewExample]. *)
Inductive Logger : Type :=
| Built (cfg : Config)
| Example.

(** A [*zap.SugaredLogger]: its base logger and the options added to it. *)
Record SugaredLogger : Type := mkSugared {
  base : Logger;
  callerSkip : Z;
  fields : list Field
}.

Definition Sugar (l : Logger) : SugaredLogger :=
  {| base := l; callerSkip := 0; fields := [] |}.

Inductive Option_ : Type :=
| AddCallerSkip (skip : Z)
| Fields (fs : list Field).

Definition WithOptions (s : SugaredLogger) (o : Option_) : SugaredLogger :=
  match o with
  | AddCallerSkip k =>
      {| base := base s; callerSkip := callerSkip s + k; fields := fields s |}
  | Fields fs =>
      {| base := base s; callerSkip := callerSkip s; fields := fields s ++ fs |}
  end.

End zap.

(** ** Go values behind [interface{}] *)

(** The dynamic types the facade can meet. *)
Inductive GoType : Type :=
| TLogger              (* config.Logger *)
| TLoggerPtr           (* *config.Logger *)
| TConfig              (* config.Config *)
| TString
| TInt
| TBool
| TError (name : string)   (* a type with an Error() string method *)
| TOther (name : string).  (* any other type *)

(** A value of type [interface{}]: [VNil] is the nil interface, the others
    carry their dynamic type.  [VError name msg] is a value whose type
    implements [error] and whose [Error()] returns [msg]; [VErrorPanics name]
    is a value whose type implements [error] and whose [Error()] panics,
    such as a nil pointer of a type whose method reads its receiver. *)
Inductive value : Type :=
| VNil
| VLogger (c : config.Logger)
| VLoggerPtr (c : option config.Logger)
| VConfig (c : config.Config)
| VString (s : string)
| VInt (n : Z)
| VBool (b : bool)
| VError (name : string) (msg : string)
| VErrorPanics (name : string)
| VOther (name : string) (repr : string).

Definition dynamic_type (v : value) : option GoType :=
  match v with
  | VNil => None
  | VLogger _ => Some TLogger
  | VLoggerPtr _ => Some TLoggerPtr
  | VConfig _ => Some TConfig
  | VString _ => Some TString
  | VInt _ => Some TInt
  | VBool _ => Some TBool
  | VError name _ => Some (TError name)
  | VErrorPanics name => Some (TError name)
  | VOther name _ => Some (TOther name)
  end.


(** ** Effects of the facade: a trace of calls, and panics *)

(** What the facade does to the world, in order: a sink registered with zap,
    a configuration handed to [Build] (with its outcome), a leveled call on
    a sugared logger (what zap is asked to log), a [Sync], a [fmt.Println]. *)
Inductive Event : Type :=
| RegisterSink (scheme : string) (ll : lumberjack.Logger)
| BuildCall (cfg : zap.Config) (err : option string)
| LogCall (lg : zap.SugaredLogger) (lvl : Level) (args : list value)
| SyncCall (lg : zap.SugaredLogger)
| Println (args : list value).

Inductive Result (A : Type) : Type :=
| Ok (a : A)
| Panic (msg : string).
Arguments Ok {A} a.
Arguments Panic {A} msg.

(** A computation appends to the trace and returns or panics. *)
Definition M (A : Type) : Type := list Event -> Result A * list Event.

Definition ret {A : Type} (a : A) : M A := fun t => (Ok a, t).

Definition bind {A B : Type} (c : M A) (k : A -> M B) : M B :=
  fun t =>
    match c t with
    | (Ok a, t') => k a t'
    | (Panic msg, t') => (Panic msg, t')
    end.

Definition panic {A : Type} (msg : string) : M A := fun t => (Panic msg, t).

Definition emit (e : Event) : M unit := fun t => (Ok tt, t ++ [e]).

Notation "x <- c ;; k" := (bind c (fun x => k))
  (at level 61, c at next level, right associativity).
Notation "c ;;; k" := (bind c (fun _ => k))
  (at level 61, right associativity).

(** The comma-ok assertion [v.(error)]: the error, if [v] is one, given by
    what its [Error()] does. *)
Definition as_error (v : value) : option (Result string) :=
  match v with
  | VError _ msg => Some (Ok msg)
  | VErrorPanics _ =>
      Some (Panic "runtime error: invalid memory address or nil pointer dereference")
  | _ => None
  end.

(** The call [err.Error()]. *)
Definition call_Error (err : Result string) : M string :=
  match err with
  | Ok msg => ret msg
  | Panic msg => panic msg
  end.

(** [len(s)] of a slice, as a Go [int]. *)
Definition len {A : Type} (s : list A) : Z := Z.of_nat (List.length s).
Arguments len : simpl never.

(** [s[i]]: a run-time panic outside [0 <= i < len(s)]. *)
Definition index (s : list value) (i : Z) : M value :=
  if (i <? 0) || (len s <=? i)
  then panic "runtime error: index out of range"
  else ret (nth (Z.to_nat i) s VNil).

(** [s[:j]] for [0 <= j <= len(s)]. *)
Definition slice_to {A : Type} (s : list A) (j : Z) : list A :=
  firstn (Z.to_nat j) s.

(** ** The logger facade (source lines 124-346) *)

(** [standardLogger]: the sugared logger and the plain one ([None] is the
    nil pointer [Build] returns with an error). *)
Record standardLogger : Type := mkStandardLogger {
  logger : zap.SugaredLogger;
  log : option zap.Logger
}.

(** The unchecked assertion [confi.(config.Logger)]. *)
Definition getConfigFromInterface (confi : value) : M config.Logger :=
  match confi with
  | VLogger conf => ret conf
  | _ => panic "interface conversion: interface {} is not config.Logger"
  end.

(** A leveled call on a sugared logger, [sugar.Error(args...)] and its kin. *)
Definition sugar_log (lg : zap.SugaredLogger) (lvl : Level)
    (args : list value) : M unit :=
  emit (LogCall lg lvl args).

Section Facade.

(** [strings.TrimSpace] and the outcome of [zap.Config.Build] (its error,
    if any) belong to the libraries and the file system: parameters. *)
Variable TrimSpace : string -> string.
Variable build_error : zap.Config -> option string.

Definition Build (cfg : zap.Config) : M (option zap.Logger * option string) :=
  let nerr := build_error cfg in
  emit (BuildCall cfg nerr) ;;;
  ret (match nerr with
       | None => (Some (zap.Built cfg), None)
       | Some e => (None, Some e)
       end).

Definition encoderConfig : zap.EncoderConfig :=
  {| zap.MessageKey := "message";
     zap.LevelKey := "level";
     zap.EncodeLevel := zap.CapitalLevelEncoder;
     zap.TimeKey := "time";
     zap.EncodeTime := zap.ISO8601TimeEncoder;
     zap.CallerKey := "caller";
     zap.EncodeCaller := zap.FullCallerEncoder;
     zap.LineEnding := zap.DefaultLineEnding |}.

(** The [zap.Config] of [NewService] (source lines 216-226): standard output,
    and the log file when its name is not blank. *)
Definition service_config (conf : config.Logger) : zap.Config :=
  let atom := GetLevel (config.LoggingLevel conf) in
  let cfg :=
    {| zap.Encoding := "json";
       zap.Level_ := atom;
       zap.OutputPaths := ["stdout"];
       zap.ErrorOutputPaths := ["stderr"];
       zap.EncoderConfig_ := encoderConfig |} in
  if negb (String.eqb (TrimSpace (config.LogFileName conf)) "")
  then {| zap.Encoding := zap.Encoding cfg;
          zap.Level_ := zap.Level_ cfg;
          zap.OutputPaths := zap.OutputPaths cfg ++ [config.LogFileName conf];
          zap.ErrorOutputPaths := zap.ErrorOutputPaths cfg;
          zap.EncoderConfig_ := zap.EncoderConfig_ cfg |}
  else cfg.

(** [NewService], statement by statement; the deferred [Sync] runs last. *)
Definition NewService (config_ : value) : M standardLogger :=
  conf <- getConfigFromInterface config_ ;;
  (if negb (String.eqb (TrimSpace (config.LogFileName conf)) "")
   then
     let ll :=
       {| lumberjack.Filename := config.LogFileName conf;
          lumberjack.MaxSize := config.LogFileSizeCappingInMBs conf;
          lumberjack.MaxBackups := config.MaxLogBackupsCount conf;
          lumberjack.MaxAge := config.MaxOldLogRetentionInDays conf;
          lumberjack.Compress := config.OldLogsCompressionRequired conf |} in
     emit (RegisterSink "lumberjack" ll)
   else ret tt) ;;;
  let cfg := service_config conf in
  built <- Build cfg ;;
  let '(logger_, nerr) := built in
  sugar <- match nerr with
           | Some _ =>
               let sugar := zap.Sugar zap.Example in
               sugar_log sugar ErrorLevel
                 [VString "Was unable to create logger file!"] ;;;
               sugar_log sugar ErrorLevel
                 [VString "Was unable to create desired logger, running on simple logger!"] ;;;
               ret sugar
           | None =>
               match logger_ with
               | Some l =>
                   let sugar := zap.Sugar l in
                   sugar_log sugar ErrorLevel
                     [VString "Was unable to create logger file!"] ;;;
                   ret sugar
               | None => panic "invalid memory address or nil pointer dereference"
               end
           end ;;
  let sugar := zap.WithOptions sugar (zap.AddCallerSkip 1) in
  emit (SyncCall sugar) ;;;
  ret {| logger := sugar; log := logger_ |}.

(** Whether the configured file name is not blank. *)
Definition has_log_file (conf : config.Logger) : bool :=
  negb (String.eqb (TrimSpace (config.LogFileName conf)) "").

(** The events of [NewService] up to and including [Build]. *)
Definition service_prefix (conf : config.Logger) : list Event :=
  (if has_log_file conf
   then [RegisterSink "lumberjack"
           {| lumberjack.Filename := config.LogFileName conf;
              lumberjack.MaxSize := config.LogFileSizeCappingInMBs conf;
              lumberjack.MaxBackups := config.MaxLogBackupsCount conf;
              lumberjack.MaxAge := config.MaxOldLogRetentionInDays conf;
              lumberjack.Compress := config.OldLogsCompressionRequired conf |}]
   else [])
  ++ [BuildCall (service_config conf)
        (build_error (service_config conf))].

End Facade.

(** [standardLogger.Error] (source lines 260-273). *)
Definition Error (s : standardLogger) (args : list value) : M unit :=
  let reponseMessage := "unknown" in
  last_arg <- index args (len args - 1) ;;
  r <- match as_error last_arg with
       | Some err =>
           errString <- call_Error err ;;
           emit (Println [VString "errString"; VString errString]) ;;;
           let args :=
             slice_to args (len args - 1) ++ [VString " "; VString errString] in
           reponseMessage <- call_Error err ;;
           ret (args, reponseMessage)
       | None => ret (args, reponseMessage)
       end ;;
  let '(args, reponseMessage) := r in
  sugar_log
    (zap.WithOptions (logger s)
       (zap.Fields [ {| zap.Key := "response_message";
                        zap.Type_ := 15;
                        zap.String_ := reponseMessage |} ]))
    ErrorLevel args.

(** The structured field [Error] attaches to its record. *)
Definition response_message (m : string) : zap.Field :=
  {| zap.Key := "response_message"; zap.Type_ := 15; zap.String_ := m |}.

(** The sibling variadic methods are plain delegations. *)
Definition Fatal (s : standardLogger) (args : list value) : M unit :=
  sugar_log (logger s) FatalLevel args.
Definition Info (s : standardLogger) (args : list value) : M unit :=
  sugar_log (logger s) InfoLevel args.
Definition Warn (s : standardLogger) (args : list value) : M unit :=
  sugar_log (logger s) WarnLevel args.
Definition Debug (s : standardLogger) (args : list value) : M unit :=
  sugar_log (logger s) DebugLevel args.

(** The leveled calls of a trace, in order: logger, level, arguments. *)
Fixpoint log_calls (t : list Event)
  : list (zap.SugaredLogger * Level * list value) :=
  match t with
  | [] => []
  | LogCall lg lvl args :: rest => (lg, lvl, args) :: log_calls rest
  | _ :: rest => log_calls rest
  end.

(** Where a logger writes: the output paths of the configuration it was
    built from; the logger of [zap.NewExample] writes to standard output. *)
Definition output_paths (l : zap.Logger) : list string :=
  match l with
  | zap.Built cfg => zap.OutputPaths cfg
  | zap.Example => ["stdout"]
  end.

(** Whether a logger lets a call of a level through: a built logger from
    the level of its configuration upwards, the example logger always. *)
Definition enabled (l : zap.Logger) (lvl : Level) : bool :=
  match l with
  | zap.Built cfg => level_value (zap.Level_ cfg) <=? level_value lvl
  | zap.Example => true
  end.

(** The records a trace puts out: the leveled calls their logger lets
    through. *)
Fixpoint emitted (t : list Event)
  : list (zap.SugaredLogger * Level * list value) :=
  match t with
  | [] => []
  | LogCall lg lvl args :: rest =>
      if enabled (zap.base lg) lvl then (lg, lvl, args) :: emitted rest
      else emitted rest
  | _ :: rest => emitted rest
  end.

(** The sink zap holds for the scheme "lumberjack" after a trace:
    [zap.RegisterSink] keeps the first registration of a scheme and refuses
    every later one (an error the code drops). *)
Fixpoint sink_in_force (t : list Event) : option lumberjack.Logger :=
  match t with
  | [] => None
  | RegisterSink scheme ll :: rest =>
      if String.eqb scheme "lumberjack" then Some ll else sink_in_force rest
  | _ :: rest => sink_in_force rest
  end.

(** The sinks passed to [zap.RegisterSink] in a trace, accepted or not. *)
Fixpoint registered_sinks (t : list Event) : list lumberjack.Logger :=
  match t with
  | [] => []
  | RegisterSink _ ll :: rest => ll :: registered_sinks rest
  | _ :: rest => registered_sinks rest
  end.

(** An instance of the parameter [TrimSpace]: what [strings.TrimSpace] does
    on ASCII text, where white space is tab, line feed, vertical tab, form
    feed, carriage return and space. *)
Definition is_ascii_space (c : ascii) : bool :=
  let n := nat_of_ascii c in
  ((9 <=? n) && (n <=? 13))%nat || (n =? 32)%nat.

Fixpoint trim_left (s : string) : string :=
  match s with
  | EmptyString => EmptyString
  | String c rest => if is_ascii_space c then trim_left rest else s
  end.

Fixpoint trim_right (s : string) : string :=
  match s with
  | EmptyString => EmptyString
  | String c rest =>
      match trim_right rest with
      | EmptyString => if is_ascii_space c then EmptyString
                       else String c EmptyString
      | kept => String c kept
      end
  end.

Definition trim_ascii_space (s : string) : string := trim_right (trim_left s).

(** ** The asynchronous writer (source lines 138-170) *)

Definition bytes : Type := list byte.

(** Where the worker goroutine of [NewBufwriter] stands in its loop. *)
Inductive worker_pc : Type :=
| AtRange                  (* about to receive: [for p := range c] *)
| Parked                   (* blocked in that receive, channel empty *)
| AtStdoutWrite (p : bytes)  (* about to run [os.Stdout.Write(p)] *)
| AtFileWrite (p : bytes).   (* about to run [l.Write(p)] *)

(** A goroutine started by [NewBufwriter]: its position and its file sink. *)
Record goroutine : Type := mkGoroutine {
  pc : worker_pc;
  sink : lumberjack.Logger
}.

(** The outcome of a write to standard output or to the file. *)
Inductive io_outcome : Type :=
| IoOk
| IoErr (msg : string).

(** What can be observed of the writer, in order.  A call of [Write] is
    numbered when it starts; [Return] is what that call hands back. *)
Inductive wevent : Type :=
| Call (id : nat) (p : bytes)
| Return (id : nat) (n : Z) (err : option string)
| Recv (w : nat) (p : bytes)
| StdoutWrite (w : nat) (p : bytes) (o : io_outcome)
| FileWrite (w : nat) (l : lumberjack.Logger) (p : bytes) (o : io_outcome).

(** The channel of type [bufwriter] with the goroutines around it: capacity,
    buffered elements (oldest first), blocked senders (oldest first, each
    with the number of its call), parked receivers, the workers, the number
    of calls of [Write] so far and the history. *)
Record writer : Type := mkWriter {
  qcap : Z;
  qbuf : list bytes;
  sendq : list (nat * bytes);
  recvq : list nat;
  workers : list goroutine;
  ncalls : nat;
  history : list wevent
}.

(** The runtime's limit on the capacity of a [chan []byte] on a 64-bit
    platform: a buffer of [n] slice headers of 24 bytes after a channel
    header of 96 bytes may not pass [2^48] bytes. *)
Definition runtime_max_chan_cap : Z := (2 ^ 48 - 96) / 24.

Section Allocation.

(** The largest capacity whose buffer the machine at hand has memory for. *)
Variable max_chan_cap : Z.

(** [make(bufwriter, n)]: a negative size, and one past the runtime's
    limit, is the run-time panic "makechan: size out of range"; a buffer
    within that limit for which there is no memory ends the program with
    the runtime's out-of-memory error, which is a [Panic] here as well. *)
Definition make_chan (n : Z) : Result writer :=
  if (n <? 0) || (runtime_max_chan_cap <? n)
  then Panic "makechan: size out of range"
  else if max_chan_cap <? n
  then Panic "fatal error: runtime: out of memory"
  else Ok {| qcap := n; qbuf := []; sendq := []; recvq := [];
             workers := []; ncalls := 0; history := [] |}.

(** The [go] statement: one more goroutine, at the head of its loop. *)
Definition go_worker (l : lumberjack.Logger) (c : writer) : writer :=
  {| qcap := qcap c; qbuf := qbuf c; sendq := sendq c; recvq := recvq c;
     workers := workers c ++ [ {| pc := AtRange; sink := l |} ];
     ncalls := ncalls c; history := history c |}.

(** [NewBufwriter]: the channel, the file sink, one goroutine. *)
Definition NewBufwriter (n : Z) (logFile : string) : Result writer :=
  match make_chan n with
  | Panic msg => Panic msg
  | Ok w =>
      let logwriter :=
        {| lumberjack.Filename := logFile;
           lumberjack.MaxSize := 500;
           lumberjack.MaxBackups := 10;
           lumberjack.MaxAge := 7;
           lumberjack.Compress := false |} in
      Ok (go_worker logwriter w)
  end.

End Allocation.

(** Moving worker [i] to a new position. *)
Fixpoint set_pc (i : nat) (npc : worker_pc) (ws : list goroutine)
  : list goroutine :=
  match ws, i with
  | [], _ => []
  | g :: rest, O => {| pc := npc; sink := sink g |} :: rest
  | g :: rest, S j => g :: set_pc j npc rest
  end.

(** What [Write] returns once its send is through: [len(p), nil]. *)
Definition Write_result (id : nat) (p : bytes) : wevent :=
  Return id (len p) None.

(** The send [bw <- p] of call [id]: handed to a parked receiver, else put
    in the buffer if there is room, else the caller blocks in [sendq].
    The [bool] tells whether the send is through. *)
Definition chansend (id : nat) (p : bytes) (c : writer) : writer * bool :=
  match recvq c with
  | w :: parked =>
      ({| qcap := qcap c; qbuf := qbuf c; sendq := sendq c; recvq := parked;
          workers := set_pc w (AtStdoutWrite p) (workers c);
          ncalls := ncalls c; history := history c ++ [Recv w p] |}, true)
  | [] =>
      if len (qbuf c) <? qcap c
      then ({| qcap := qcap c; qbuf := qbuf c ++ [p]; sendq := sendq c;
               recvq := recvq c; workers := workers c;
               ncalls := ncalls c; history := history c |}, true)
      else ({| qcap := qcap c; qbuf := qbuf c; sendq := sendq c ++ [(id, p)];
               recvq := recvq c; workers := workers c;
               ncalls := ncalls c; history := history c |}, false)
  end.

Definition log_event (e : wevent) (c : writer) : writer :=
  {| qcap := qcap c; qbuf := qbuf c; sendq := sendq c; recvq := recvq c;
     workers := workers c; ncalls := ncalls c; history := history c ++ [e] |}.

Definition count_call (c : writer) : writer :=
  {| qcap := qcap c; qbuf := qbuf c; sendq := sendq c; recvq := recvq c;
     workers := workers c; ncalls := S (ncalls c); history := history c |}.

(** [bufwriter.Write]: the send, then [return len(p), nil].  A caller that
    blocks gets its result when a receive lets its send through. *)
Definition Write (p : bytes) (c : writer) : writer :=
  let id := ncalls c in
  let '(c', through) := chansend id p (log_event (Call id p) (count_call c)) in
  if through then log_event (Write_result id p) c' else c'.

(** The receive of worker [w] at [for p := range c]: the oldest buffered
    element (and the oldest blocked sender moves into the buffer and
    returns), else the element of a blocked sender directly, else park. *)
Definition chanrecv (w : nat) (c : writer) : writer :=
  match qbuf c with
  | p :: rest =>
      match sendq c with
      | (id, q) :: waiting =>
          {| qcap := qcap c; qbuf := rest ++ [q]; sendq := waiting;
             recvq := recvq c;
             workers := set_pc w (AtStdoutWrite p) (workers c);
             ncalls := ncalls c;
             history := history c ++ [Recv w p; Write_result id q] |}
      | [] =>
          {| qcap := qcap c; qbuf := rest; sendq := [];
             recvq := recvq c;
             workers := set_pc w (AtStdoutWrite p) (workers c);
             ncalls := ncalls c; history := history c ++ [Recv w p] |}
      end
  | [] =>
      match sendq c with
      | (id, q) :: waiting =>
          {| qcap := qcap c; qbuf := []; sendq := waiting;
             recvq := recvq c;
             workers := set_pc w (AtStdoutWrite q) (workers c);
             ncalls := ncalls c;
             history := history c ++ [Recv w q; Write_result id q] |}
      | [] =>
          {| qcap := qcap c; qbuf := []; sendq := [];
             recvq := recvq c ++ [w];
             workers := set_pc w Parked (workers c);
             ncalls := ncalls c; history := history c |}
      end
  end.

(** One step of worker [w]; [o] is the outcome of the write it performs, if
    it performs one.  Both results of the loop body are thrown away. *)
Definition worker_step (w : nat) (o : io_outcome) (c : writer) : writer :=
  match nth_error (workers c) w with
  | None => c
  | Some g =>
      match pc g with
      | AtRange => chanrecv w c
      | Parked => c
      | AtStdoutWrite p =>
          {| qcap := qcap c; qbuf := qbuf c; sendq := sendq c;
             recvq := recvq c;
             workers := set_pc w (AtFileWrite p) (workers c);
             ncalls := ncalls c;
             history := history c ++ [StdoutWrite w p o] |}
      | AtFileWrite p =>
          {| qcap := qcap c; qbuf := qbuf c; sendq := sendq c;
             recvq := recvq c;
             workers := set_pc w AtRange (workers c);
             ncalls := ncalls c;
             history := history c ++ [FileWrite w (sink g) p o] |}
      end
  end.

(** A schedule interleaves calls of [Write] with steps of the workers. *)
Inductive action : Type :=
| DoWrite (p : bytes)
| DoWorker (w : nat) (o : io_outcome).

Definition step (a : action) (c : writer) : writer :=
  match a with
  | DoWrite p => Write p c
  | DoWorker w o => worker_step w o c
  end.

Fixpoint run (sched : list action) (c : writer) : writer :=
  match sched with
  | [] => c
  | a :: rest => run rest (step a c)
  end.

(** ** Reading a history *)

(** The calls of [Write], in the order they were made. *)
Fixpoint calls_of (h : list wevent) : list (nat * bytes) :=
  match h with
  | [] => []
  | Call id p :: rest => (id, p) :: calls_of rest
  | _ :: rest => calls_of rest
  end.

(** The buffers passed to [Write], in call order. *)
Definition called (h : list wevent) : list bytes := map snd (calls_of h).

(** What the calls of [Write] returned, in the order they returned. *)
Fixpoint returns_of (h : list wevent) : list (nat * Z * option string) :=
  match h with
  | [] => []
  | Return id n err :: rest => (id, n, err) :: returns_of rest
  | _ :: rest => returns_of rest
  end.

(** The buffers the workers took from the channel, in order. *)
Fixpoint received (h : list wevent) : list bytes :=
  match h with
  | [] => []
  | Recv _ p :: rest => p :: received rest
  | _ :: rest => received rest
  end.

Inductive sink_target : Type :=
| ToStdout
| ToFile (l : lumberjack.Logger).

(** The writes performed, in order, whatever their outcome. *)
Fixpoint io_writes (h : list wevent) : list (sink_target * bytes) :=
  match h with
  | [] => []
  | StdoutWrite _ p _ :: rest => (ToStdout, p) :: io_writes rest
  | FileWrite _ l p _ :: rest => (ToFile l, p) :: io_writes rest
  | _ :: rest => io_writes rest
  end.

(** The buffers written to standard output, in order. *)
Fixpoint stdout_writes (h : list wevent) : list bytes :=
  match h with
  | [] => []
  | StdoutWrite _ p _ :: rest => p :: stdout_writes rest
  | _ :: rest => stdout_writes rest
  end.

(** The standard-output part of a list of writes. *)
Fixpoint only_stdout (ws : list (sink_target * bytes)) : list bytes :=
  match ws with
  | [] => []
  | (ToStdout, p) :: rest => p :: only_stdout rest
  | (ToFile _, _) :: rest => only_stdout rest
  end.

(** One pass of the loop body on [p]: standard output, then the file. *)
Definition both_sinks (l : lumberjack.Logger) (p : bytes)
  : list (sink_target * bytes) :=
  [(ToStdout, p); (ToFile l, p)].

(** The file sink [NewBufwriter] gives its worker. *)
Definition default_sink (logFile : string) : lumberjack.Logger :=
  {| lumberjack.Filename := logFile;
     lumberjack.MaxSize := 500;
     lumberjack.MaxBackups := 10;
     lumberjack.MaxAge := 7;
     lumberjack.Compress := false |}.

(** The states a writer made by [NewBufwriter n logFile] can reach. *)
Definition reachable (max_chan_cap n : Z) (logFile : string) (c : writer)
  : Prop :=
  exists c0 sched,
    NewBufwriter max_chan_cap n logFile = Ok c0 /\ c = run sched c0.

(** The buffer the worker holds between its receive and its file write. *)
Definition in_hand (k : worker_pc) : list bytes :=
  match k with
  | AtStdoutWrite p | AtFileWrite p => [p]
  | AtRange | Parked => []
  end.

(** The write of the current pass that is already done. *)
Definition half_done (k : worker_pc) : list (sink_target * bytes) :=
  match k with
  | AtFileWrite p => [(ToStdout, p)]
  | _ => []
  end.

(** The worker steps still needed to write out all that was accepted. *)
Definition backlog (k : worker_pc) (c : writer) : nat :=
  3 * (List.length (qbuf c) + List.length (sendq c))
  + match k with
    | AtStdoutWrite _ => 2
    | AtFileWrite _ => 1
    | AtRange | Parked => 0
    end.

(** Where a step of the single worker takes it. *)
Definition after_worker_step (k : worker_pc) (c : writer) : worker_pc :=
  match k with
  | AtRange =>
      match qbuf c, sendq c with
      | p :: _, _ => AtStdoutWrite p
      | [], (_, q) :: _ => AtStdoutWrite q
      | [], [] => Parked
      end
  | Parked => Parked
  | AtStdoutWrite p => AtFileWrite p
  | AtFileWrite _ => AtRange
  end.

(** A schedule with every I/O outcome replaced by success. *)
Definition calm (a : action) : action :=
  match a with
  | DoWrite p => DoWrite p
  | DoWorker w _ => DoWorker w IoOk
  end.

(** An event with the outcome of its write forgotten. *)
Definition forget_outcome (e : wevent) : wevent :=
  match e with
  | StdoutWrite w p _ => StdoutWrite w p IoOk
  | FileWrite w l p _ => FileWrite w l p IoOk
  | e => e
  end.

(** A writer with the outcomes of its past writes forgotten. *)
Definition forget (c : writer) : writer :=
  {| qcap := qcap c; qbuf := qbuf c; sendq := sendq c; recvq := recvq c;
     workers := workers c; ncalls := ncalls c;
     history := map forget_outcome (history c) |}.

(** The invariant of a writer with the single worker of [NewBufwriter],
    whose sink is [l] and whose position is [k]. *)
Record writer_inv (l : lumberjack.Logger) (k : worker_pc) (c : writer)
  : Prop := mkInv {
  inv_worker : workers c = [ {| pc := k; sink := l |} ];
  inv_recvq : recvq c = match k with Parked => [0%nat] | _ => [] end;
  inv_parked : k = Parked -> qbuf c = [] /\ sendq c = [];
  inv_cap : 0 <= qcap c;
  inv_len : len (qbuf c) <= qcap c;
  inv_full : sendq c <> [] -> len (qbuf c) = qcap c;
  inv_fifo : called (history c) =
             received (history c) ++ qbuf c ++ map snd (sendq c);
  inv_io : exists done,
      received (history c) = done ++ in_hand k /\
      io_writes (history c) = flat_map (both_sinks l) done ++ half_done k;
  inv_ids : forall id p, In (Call id p) (history c) -> (id < ncalls c)%nat;
  inv_nodup : NoDup (map fst (sendq c));
  inv_blocked : forall id p, In (id, p) (sendq c) ->
      In (Call id p) (history c) /\
      forall n err, ~ In (Return id n err) (history c);
  inv_returns : forall id n err, In (Return id n err) (history c) ->
      exists p, In (Call id p) (history c) /\ n = len p /\ err = None;
  inv_done : forall id p, In (Call id p) (history c) ->
      In (id, p) (sendq c) \/ In (Return id (len p) None) (history c);
  inv_reader : forall w p, In (Recv w p) (history c) -> w = 0%nat
}.

(** ** The rest of the facade: accessors, the plain-logger methods and the
       process-wide logger (source lines 145-153, 244-254, 275-337) *)

(** [GetZapLogger], [GetSDLogger] and the method [GetLogger]. *)
Definition GetZapLogger (s : standardLogger) : option zap.Logger := log s.
Definition GetSDLogger (s : standardLogger) : zap.SugaredLogger := logger s.
Definition standardLogger_GetLogger (s : standardLogger) : standardLogger := s.

(** A call on the plain logger: [l.Error(msg, fields...)] and its kin. *)
Record PlainCall : Type := mkPlainCall {
  pc_logger : zap.Logger;
  pc_level : Level;
  pc_msg : string;
  pc_fields : list zap.Field
}.

(** [s.log.X(msg, fields...)]: the call that is made, or the panic of a
    method of [*zap.Logger] that reads its nil receiver. *)
Definition plain_log (l : option zap.Logger) (lvl : Level) (msg : string)
    (fs : list zap.Field) : Result PlainCall :=
  match l with
  | None => Panic "invalid memory address or nil pointer dereference"
  | Some l => Ok {| pc_logger := l; pc_level := lvl; pc_msg := msg;
                    pc_fields := fs |}
  end.

Definition Errorz (s : standardLogger) (msg : string) (fs : list zap.Field)
  : Result PlainCall := plain_log (log s) ErrorLevel msg fs.
Definition Fatalz (s : standardLogger) (msg : string) (fs : list zap.Field)
  : Result PlainCall := plain_log (log s) FatalLevel msg fs.
Definition Infoz (s : standardLogger) (msg : string) (fs : list zap.Field)
  : Result PlainCall := plain_log (log s) InfoLevel msg fs.
Definition Warnz (s : standardLogger) (msg : string) (fs : list zap.Field)
  : Result PlainCall := plain_log (log s) WarnLevel msg fs.
Definition Debugz (s : standardLogger) (msg : string) (fs : list zap.Field)
  : Result PlainCall := plain_log (log s) DebugLevel msg fs.

(** The package variable [loggerPointer] ([None] is nil) with [SetLogger]
    and [GetLogger]; the variable is passed explicitly. *)
Definition SetLogger (l : option standardLogger)
    (loggerPointer : option standardLogger) : option standardLogger := l.
Definition GetLogger (loggerPointer : option standardLogger)
  : option standardLogger := loggerPointer.

(** A sequence of [SetLogger] calls, oldest first. *)
Definition set_loggers (ls : list (option standardLogger))
    (loggerPointer : option standardLogger) : option standardLogger :=
  fold_left (fun g l => SetLogger l g) ls loggerPointer.

(** The [Build] calls of a trace and its [Sync] calls, in order. *)
Fixpoint build_calls (t : list Event) : list (zap.Config * option string) :=
  match t with
  | [] => []
  | BuildCall cfg err :: rest => (cfg, err) :: build_calls rest
  | _ :: rest => build_calls rest
  end.

Fixpoint sync_calls (t : list Event) : list zap.SugaredLogger :=
  match t with
  | [] => []
  | SyncCall lg :: rest => lg :: sync_calls rest
  | _ :: rest => sync_calls rest
  end.

(** What [fmt.Println] printed, in order. *)
Fixpoint printed (t : list Event) : list (list value) :=
  match t with
  | [] => []
  | Println args :: rest => args :: printed rest
  | _ :: rest => printed rest
  end.

(** ** Further readings of a writer's history *)


(** The file part of a list of writes. *)
Fixpoint only_file (ws : list (sink_target * bytes)) : list bytes :=
  match ws with
  | [] => []
  | (ToFile _, p) :: rest => p :: only_file rest
  | (ToStdout, _) :: rest => only_file rest
  end.


(** * Part II: the theorems *)

(** ** Levels *)

Lemma eqb_neq_of_not_in (l s : string) (names : list string) :
  ~ In l names -> In s names -> String.eqb l s = false.
Proof.
  intros Hout Hin. apply String.eqb_neq. intro E. subst. contradiction.
Qed.

(** Every string falls in one case of the [switch]. *)
Lemma GetLevel_cases (l : string) :
  (l = "INFO" /\ GetLevel l = INFO) \/
  (l = "WARN" /\ GetLevel l = WARN) \/
  (l = "ERROR" /\ GetLevel l = ERROR) \/
  (l = "DPANIC" /\ GetLevel l = PANIC) \/
  (l = "PANIC" /\ GetLevel l = PANIC) \/
  (l = "FATAL" /\ GetLevel l = FATAL) \/
  (l = "DEBUG" /\ GetLevel l = DEBUG) \/
  (~ In l level_names /\ GetLevel l = INFO).
Proof.
  unfold GetLevel.
  destruct (String.eqb_spec l "INFO") as [-> | H1]; [tauto |].
  destruct (String.eqb_spec l "WARN") as [-> | H2]; [tauto |].
  destruct (String.eqb_spec l "ERROR") as [-> | H3]; [tauto |].
  destruct (String.eqb_spec l "DPANIC") as [-> | H4]; [tauto |].
  destruct (String.eqb_spec l "PANIC") as [-> | H5]; [tauto |].
  destruct (String.eqb_spec l "FATAL") as [-> | H6]; [tauto |].
  destruct (String.eqb_spec l "DEBUG") as [-> | H7]; [tauto |].
  do 7 right. split; [| reflexivity].
  simpl. intros [E | [E | [E | [E | [E | [E | [E | []]]]]]]];
    symmetry in E; contradiction.
Qed.

(** C5: [GetLevel] sends each name of the enumeration to its level, with
    "DPANIC" resolved to the level of "PANIC" (and so not to [DPANIC]), and
    every string outside the enumeration to [INFO]. *)
Theorem GetLevel_enumeration_and_default :
  GetLevel "INFO" = INFO /\ GetLevel "WARN" = WARN /\
  GetLevel "ERROR" = ERROR /\ GetLevel "PANIC" = PANIC /\
  GetLevel "FATAL" = FATAL /\ GetLevel "DEBUG" = DEBUG /\
  GetLevel "DPANIC" = GetLevel "PANIC" /\ GetLevel "DPANIC" <> DPANIC /\
  forall l : string, ~ In l level_names -> GetLevel l = INFO.
Proof.
  repeat split; try reflexivity; try discriminate.
  intros l Hout. unfold GetLevel.
  repeat (rewrite (eqb_neq_of_not_in l _ level_names Hout)
            by (simpl; tauto)).
  reflexivity.
Qed.

(** A string outside the enumeration, run through the theorem. *)
Lemma GetLevel_default_witness : GetLevel "TRACE" = INFO.
Proof.
  apply (proj2 (proj2 (proj2 (proj2 (proj2 (proj2 (proj2 (proj2
           GetLevel_enumeration_and_default)))))))).
  vm_compute. intros H. repeat (destruct H as [H | H]; [discriminate H |]).
  exact H.
Defined.

(** ** Slices *)

Lemma len_app {A : Type} (s1 s2 : list A) : len (s1 ++ s2) = len s1 + len s2.
Proof. unfold len. rewrite length_app. lia. Qed.

Lemma len_nonneg {A : Type} (s : list A) : 0 <= len s.
Proof. unfold len. lia. Qed.

Lemma index_last (front : list value) (x : value) (t : list Event) :
  index (front ++ [x]) (len (front ++ [x]) - 1) t = (Ok x, t).
Proof.
  unfold index. rewrite len_app. change (len [x]) with 1.
  pose proof (len_nonneg front) as Hl.
  replace (len front + 1 - 1) with (len front) by lia.
  destruct (Z.ltb_spec (len front) 0) as [Hn | _]; [lia |].
  destruct (Z.leb_spec (len front + 1) (len front)) as [Hn | _]; [lia |].
  simpl. unfold ret, len. rewrite Nat2Z.id.
  rewrite nth_middle. reflexivity.
Qed.

Lemma slice_to_last {A : Type} (front : list A) (x : A) :
  slice_to (front ++ [x]) (len (front ++ [x]) - 1) = front.
Proof.
  unfold slice_to. rewrite len_app. change (len [x]) with 1.
  replace (len front + 1 - 1) with (len front) by lia.
  unfold len. rewrite Nat2Z.id.
  rewrite firstn_app, firstn_all, Nat.sub_diag. simpl. apply app_nil_r.
Qed.

(** ** The [Error] method *)


(** The not-an-error branch on a non-empty argument list: no panic, nothing
    printed, the arguments unchanged and [response_message = "unknown"]. *)
Lemma Error_with_other_last (s : standardLogger) (front : list value)
    (x : value) (t : list Event) :
  as_error x = None ->
  Error s (front ++ [x]) t =
  (Ok tt,
   t ++ [LogCall (zap.WithOptions (logger s)
                    (zap.Fields [response_message "unknown"]))
           ErrorLevel (front ++ [x])]).
Proof.
  intros Hx. unfold Error, bind. rewrite index_last, Hx. reflexivity.
Qed.

(** A string as the last argument of [Error], on the example logger. *)
Lemma Error_with_other_last_witness :
  let s := {| logger := zap.Sugar zap.Example; log := None |} in
  fst (Error s [VInt 7; VString "done"] []) = Ok tt.
Proof.
  intros s.
  change [VInt 7; VString "done"] with ([VInt 7] ++ [VString "done"]).
  rewrite (Error_with_other_last s [VInt 7] (VString "done") [] eq_refl).
  reflexivity.
Defined.

(** C4 (at the empty argument list): [Error] with no argument panics on the
    index [len(args)-1 = -1] and logs nothing, where the sibling [Info]
    logs its record. *)
Theorem Error_empty_args_panics (s : standardLogger) (t : list Event) :
  Error s [] t = (Panic "runtime error: index out of range", t) /\
  Info s [] t = (Ok tt, t ++ [LogCall (logger s) InfoLevel []]).
Proof. split; reflexivity. Qed.

(** ** [NewService] *)

Section FacadeFacts.

Variable TrimSpace : string -> string.
Variable build_error : zap.Config -> option string.

Lemma has_log_file_spec (conf : config.Logger) :
  has_log_file TrimSpace conf = true <-> TrimSpace (config.LogFileName conf) <> "".
Proof.
  unfold has_log_file. rewrite negb_true_iff. apply String.eqb_neq.
Qed.

Lemma service_config_paths (conf : config.Logger) :
  zap.OutputPaths (service_config TrimSpace conf) =
  "stdout" :: (if has_log_file TrimSpace conf then [config.LogFileName conf] else []).
Proof.
  unfold service_config, has_log_file.
  destruct (negb _); reflexivity.
Qed.

(** [NewService] on a [config.Logger] value, in full: the trace it leaves
    and the logger it returns, on both outcomes of [Build]. *)
Lemma NewService_run (conf : config.Logger) (t : list Event) :
  let cfg := service_config TrimSpace conf in
  NewService TrimSpace build_error (VLogger conf) t =
  match build_error cfg with
  | None =>
      let sugar := zap.Sugar (zap.Built cfg) in
      (Ok {| logger := zap.WithOptions sugar (zap.AddCallerSkip 1);
             log := Some (zap.Built cfg) |},
       t ++ service_prefix TrimSpace build_error conf
         ++ [LogCall sugar ErrorLevel
               [VString "Was unable to create logger file!"];
             SyncCall (zap.WithOptions sugar (zap.AddCallerSkip 1))])
  | Some _ =>
      let sugar := zap.Sugar zap.Example in
      (Ok {| logger := zap.WithOptions sugar (zap.AddCallerSkip 1);
             log := None |},
       t ++ service_prefix TrimSpace build_error conf
         ++ [LogCall sugar ErrorLevel
               [VString "Was unable to create logger file!"];
             LogCall sugar ErrorLevel
               [VString "Was unable to create desired logger, running on simple logger!"];
             SyncCall (zap.WithOptions sugar (zap.AddCallerSkip 1))])
  end.
Proof.
  intros cfg. unfold NewService, service_prefix, has_log_file.
  unfold bind at 1. cbn [getConfigFromInterface]. unfold ret at 1.
  fold cfg.
  destruct (negb (String.eqb (TrimSpace (config.LogFileName conf)) ""));
    unfold Build, bind, emit, ret, sugar_log, emit;
    destruct (build_error cfg); cbn;
    repeat rewrite <- app_assoc; reflexivity.
Qed.

Lemma log_calls_app (t1 t2 : list Event) :
  log_calls (t1 ++ t2) = log_calls t1 ++ log_calls t2.
Proof.
  induction t1 as [| e t1 IH]; [reflexivity |].
  destruct e; simpl; rewrite IH; reflexivity.
Qed.

Lemma registered_sinks_app (t1 t2 : list Event) :
  registered_sinks (t1 ++ t2) = registered_sinks t1 ++ registered_sinks t2.
Proof.
  induction t1 as [| e t1 IH]; [reflexivity |].
  destruct e; simpl; rewrite IH; reflexivity.
Qed.

Lemma log_calls_service_prefix (conf : config.Logger) :
  log_calls (service_prefix TrimSpace build_error conf) = [].
Proof. unfold service_prefix. destruct (has_log_file _ _); reflexivity. Qed.

(** The configuration [NewService] builds its logger from always lists
    standard output, and lists the configured file as the one further output
    path exactly when the file name is not blank after trimming; with an
    empty file name the paths are standard output alone and no sink is
    passed to [zap.RegisterSink].  On success the returned logger is the
    one built from that configuration. *)
Lemma NewService_config_paths (conf : config.Logger) (t : list Event) :
  TrimSpace "" = "" ->
  let cfg := service_config TrimSpace conf in
  let r := NewService TrimSpace build_error (VLogger conf) t in
  In (BuildCall cfg (build_error cfg)) (snd r) /\
  (build_error cfg = None ->
   exists sl, fst r = Ok sl /\ log sl = Some (zap.Built cfg) /\
              zap.base (logger sl) = zap.Built cfg) /\
  hd_error (zap.OutputPaths cfg) = Some "stdout" /\
  (tl (zap.OutputPaths cfg) = [config.LogFileName conf] <->
   TrimSpace (config.LogFileName conf) <> "") /\
  (tl (zap.OutputPaths cfg) = [] <->
   TrimSpace (config.LogFileName conf) = "") /\
  (config.LogFileName conf = "" ->
   zap.OutputPaths cfg = ["stdout"] /\
   registered_sinks (snd r) = registered_sinks t).
Proof.
  intros Hempty cfg r.
  assert (Hr : r = NewService TrimSpace build_error (VLogger conf) t)
    by reflexivity.
  rewrite NewService_run in Hr. fold cfg in Hr.
  pose proof (service_config_paths conf) as Hpaths. fold cfg in Hpaths.
  pose proof (has_log_file_spec conf) as Hspec.
  split; [| split; [| split; [| split; [| split]]]].
  - rewrite Hr. unfold service_prefix. fold cfg.
    destruct (build_error cfg); simpl;
      apply in_or_app; right; apply in_or_app; left;
      apply in_or_app; right; left; reflexivity.
  - intros Hok. rewrite Hr, Hok. eexists. simpl. repeat split.
  - rewrite Hpaths. reflexivity.
  - rewrite Hpaths. simpl. destruct (has_log_file TrimSpace conf) eqn:Hf.
    + split; [intros _; apply Hspec; reflexivity | reflexivity].
    + split; [discriminate |].
      intros Hne. apply Hspec in Hne. discriminate Hne.
  - rewrite Hpaths. simpl. destruct (has_log_file TrimSpace conf) eqn:Hf.
    + split; [discriminate |].
      intros He. exfalso. apply (proj1 Hspec eq_refl). exact He.
    + split; [| reflexivity]. intros _.
      destruct (String.eqb_spec (TrimSpace (config.LogFileName conf)) "")
        as [He | Hne]; [exact He |].
      apply Hspec in Hne. discriminate Hne.
  - intros Hname.
    assert (Hf : has_log_file TrimSpace conf = false).
    { unfold has_log_file. rewrite Hname, Hempty. reflexivity. }
    split; [rewrite Hpaths, Hf; reflexivity |].
    rewrite Hr. unfold service_prefix. rewrite Hf.
    destruct (build_error cfg); simpl;
      rewrite registered_sinks_app; simpl; apply app_nil_r.
Qed.

(** C8, as the code has it: the logger [NewService] returns always has
    standard output among its output paths.  When [Build] succeeds it is the
    logger built from the configuration, and it has the configured file as
    its one further output path exactly when the file name is not blank
    after trimming; when [Build] fails it is the example logger, which
    writes to standard output alone whatever the file name.  With an empty
    file name the paths are standard output alone on either outcome, and no
    sink is passed to [zap.RegisterSink]. *)
Theorem NewService_output_paths (conf : config.Logger) (t : list Event) :
  TrimSpace "" = "" ->
  let cfg := service_config TrimSpace conf in
  let r := NewService TrimSpace build_error (VLogger conf) t in
  exists sl,
    fst r = Ok sl /\
    hd_error (output_paths (zap.base (logger sl))) = Some "stdout" /\
    (build_error cfg = None ->
     log sl = Some (zap.Built cfg) /\
     zap.base (logger sl) = zap.Built cfg /\
     In (BuildCall cfg None) (snd r) /\
     (tl (output_paths (zap.base (logger sl))) = [config.LogFileName conf] <->
      TrimSpace (config.LogFileName conf) <> "") /\
     (tl (output_paths (zap.base (logger sl))) = [] <->
      TrimSpace (config.LogFileName conf) = "")) /\
    (build_error cfg <> None ->
     log sl = None /\
     zap.base (logger sl) = zap.Example /\
     output_paths (zap.base (logger sl)) = ["stdout"]) /\
    (config.LogFileName conf = "" ->
     output_paths (zap.base (logger sl)) = ["stdout"] /\
     zap.OutputPaths cfg = ["stdout"] /\
     registered_sinks (snd r) = registered_sinks t).
Proof.
  intros Hempty cfg r.
  destruct (NewService_config_paths conf t Hempty)
    as (Hbuild & _ & Hhd & Htl & Hnil & Hname).
  fold cfg in Hbuild, Hhd, Htl, Hnil, Hname. fold r in Hbuild, Hname.
  assert (Hr : r = NewService TrimSpace build_error (VLogger conf) t)
    by reflexivity.
  rewrite NewService_run in Hr. fold cfg in Hr.
  destruct (build_error cfg) as [e |] eqn:Hb; rewrite Hr in *;
    eexists; (split; [reflexivity |]); cbn [fst snd logger log zap.base
      zap.WithOptions zap.Sugar output_paths].
  - split; [reflexivity |]. split; [discriminate |].
    split; [intros _; repeat split; reflexivity |].
    intros Hn. destruct (Hname Hn) as [Hp Hs]. auto.
  - split; [exact Hhd |].
    split; [intros _; repeat split; tauto |].
    split; [intros H; contradiction H; reflexivity |].
    intros Hn. destruct (Hname Hn) as [Hp Hs]. auto.
Qed.

(** C9: [NewService] panics in the type assertion, before anything is
    registered, built or logged, exactly when the dynamic type of its
    argument is not [config.Logger]; a pointer to a [config.Logger], a
    [config.Config] and nil are such arguments. *)
Theorem NewService_panics_unless_Logger (v : value) (t : list Event) :
  let r := NewService TrimSpace build_error v t in
  ((exists msg, fst r = Panic msg) <-> dynamic_type v <> Some TLogger) /\
  (dynamic_type v <> Some TLogger ->
   r = (Panic "interface conversion: interface {} is not config.Logger", t)) /\
  (forall c, exists msg,
     NewService TrimSpace build_error (VLoggerPtr c) t = (Panic msg, t)) /\
  (forall c, exists msg,
     NewService TrimSpace build_error (VConfig c) t = (Panic msg, t)) /\
  (exists msg, NewService TrimSpace build_error VNil t = (Panic msg, t)).
Proof.
  intros r. subst r.
  split; [| split; [| split; [| split]]].
  - destruct v; try (split; [intros _; discriminate | intros _; eexists; reflexivity]).
    split; [| intros H; contradiction H; reflexivity].
    intros [msg Hmsg]. rewrite NewService_run in Hmsg.
    destruct (build_error _); discriminate Hmsg.
  - destruct v; intros Hty; try reflexivity.
    contradiction Hty; reflexivity.
  - intros c. eexists. reflexivity.
  - intros c. eexists. reflexivity.
  - eexists. reflexivity.
Qed.

Lemma emitted_app (t1 t2 : list Event) :
  emitted (t1 ++ t2) = emitted t1 ++ emitted t2.
Proof.
  induction t1 as [| e t1 IH]; [reflexivity |].
  destruct e; simpl; rewrite ?IH; try reflexivity.
  destruct (enabled (zap.base lg) lvl); rewrite ?IH; reflexivity.
Qed.

Lemma emitted_service_prefix (conf : config.Logger) :
  emitted (service_prefix TrimSpace build_error conf) = [].
Proof. unfold service_prefix. destruct (has_log_file _ _); reflexivity. Qed.

Lemma service_config_level (conf : config.Logger) :
  zap.Level_ (service_config TrimSpace conf) =
  GetLevel (config.LoggingLevel conf).
Proof. unfold service_config. destruct (negb _); reflexivity. Qed.

(** The level strings that resolve above [ERROR]. *)
Lemma GetLevel_above_error (l : string) :
  (level_value (GetLevel l) <=? level_value ErrorLevel) = false <->
  In l ["DPANIC"; "PANIC"; "FATAL"].
Proof.
  destruct (GetLevel_cases l)
    as [[E G] | [[E G] | [[E G] | [[E G] | [[E G] | [[E G] | [[E G] | [E G]]]]]]]];
    rewrite G; try subst l; cbn;
    (split; [try discriminate; tauto |]);
    try tauto;
    try (intros [H | [H | [H | []]]]; discriminate H).
  intros H. exfalso. apply E. cbn.
  destruct H as [H | [H | [H | []]]]; rewrite <- H; tauto.
Qed.

(** C10, as the code has it: every call of [NewService] on a
    [config.Logger] calls [Error] on its logger with "Was unable to create
    logger file!", also when [Build] succeeds; only when [Build] fails does
    it log "Was unable to create desired logger, running on simple logger!"
    as well, on the example logger it falls back to.  The record of the
    first call is put out when [Build] failed, and when it succeeded unless
    the configured level is "DPANIC", "PANIC" or "FATAL", which the built
    logger filters; a call of [NewService] on any other value panics before
    it logs. *)
Theorem NewService_always_logs_unable (conf : config.Logger)
    (t : list Event) :
  let cfg := service_config TrimSpace conf in
  let r := NewService TrimSpace build_error (VLogger conf) t in
  let unable := [VString "Was unable to create logger file!"] in
  let simple :=
    [VString "Was unable to create desired logger, running on simple logger!"] in
  let lets_errors_through :=
    level_value (GetLevel (config.LoggingLevel conf)) <=? level_value ErrorLevel in
  (exists sl, fst r = Ok sl /\
    match build_error cfg with
    | None =>
        log_calls (snd r) =
        log_calls t ++ [(zap.Sugar (zap.Built cfg), ErrorLevel, unable)] /\
        zap.base (logger sl) = zap.Built cfg /\ log sl = Some (zap.Built cfg) /\
        emitted (snd r) =
        emitted t ++
        (if lets_errors_through
         then [(zap.Sugar (zap.Built cfg), ErrorLevel, unable)] else [])
    | Some _ =>
        log_calls (snd r) =
        log_calls t ++ [(zap.Sugar zap.Example, ErrorLevel, unable);
                        (zap.Sugar zap.Example, ErrorLevel, simple)] /\
        zap.base (logger sl) = zap.Example /\ log sl = None /\
        emitted (snd r) =
        emitted t ++ [(zap.Sugar zap.Example, ErrorLevel, unable);
                      (zap.Sugar zap.Example, ErrorLevel, simple)]
    end) /\
  (lets_errors_through = false <->
   In (config.LoggingLevel conf) ["DPANIC"; "PANIC"; "FATAL"]) /\
  (forall v, dynamic_type v <> Some TLogger ->
     NewService TrimSpace build_error v t =
     (Panic "interface conversion: interface {} is not config.Logger", t)).
Proof.
  intros cfg r unable simple lets_errors_through. subst r.
  split; [| split].
  - rewrite NewService_run. fold cfg.
    destruct (build_error cfg); eexists; (split; [reflexivity |]);
      cbn [snd logger log zap.base zap.WithOptions zap.Sugar];
      rewrite !log_calls_app, !emitted_app, log_calls_service_prefix,
        emitted_service_prefix;
      (split; [reflexivity |]); (split; [reflexivity |]);
      (split; [reflexivity |]); [reflexivity |].
    cbn [emitted zap.base zap.Sugar enabled app].
    unfold cfg at 1. rewrite service_config_level.
    fold lets_errors_through. destruct lets_errors_through; reflexivity.
  - apply GetLevel_above_error.
  - intros v Hv. destruct v; try reflexivity. contradiction Hv. reflexivity.
Qed.

End FacadeFacts.

(** A number where the configuration is expected: no call is made. *)
Lemma NewService_always_logs_unable_witness :
  let conf := config.mkLogger "" "WARN" 0 0 0 false in
  NewService trim_ascii_space (fun _ => None) (VInt 3) [] =
  (Panic "interface conversion: interface {} is not config.Logger", []).
Proof.
  intros conf.
  apply (proj2 (proj2 (NewService_always_logs_unable trim_ascii_space
                         (fun _ => None) conf []))).
  discriminate.
Defined.

(** C10 fails as stated for "every call": with the level "FATAL" and a
    [Build] that succeeds the call of [Error] is made but its record is
    filtered, so none is put out; and a call with a value that is no
    [config.Logger] panics with nothing logged. *)
Lemma NewService_unable_record_filtered :
  let conf := config.mkLogger "" "FATAL" 0 0 0 false in
  let unable := [VString "Was unable to create logger file!"] in
  emitted (snd (NewService trim_ascii_space (fun _ => None)
                  (VLogger conf) [])) = [] /\
  log_calls (snd (NewService trim_ascii_space (fun _ => None)
                    (VLogger conf) [])) =
    [(zap.Sugar (zap.Built (service_config trim_ascii_space conf)),
      ErrorLevel, unable)] /\
  emitted (snd (NewService trim_ascii_space (fun _ => None)
                  (VString "app.log") [])) = [] /\
  ~ (forall (v : value) (build_error : zap.Config -> option string),
       exists lg,
         In (lg, ErrorLevel, unable)
            (emitted (snd (NewService trim_ascii_space build_error v [])))).
Proof.
  intros conf unable.
  split; [reflexivity |]. split; [reflexivity |]. split; [reflexivity |].
  intros H. destruct (H (VLogger conf) (fun _ => None)) as (lg & Hin).
  exact Hin.
Qed.

(** The paths theorem at a named file, with ASCII trimming and a [Build]
    that succeeds. *)
Lemma NewService_output_paths_witness :
  let conf := config.mkLogger "app.log" "DEBUG" 100 3 28 true in
  exists sl,
    fst (NewService trim_ascii_space (fun _ => None) (VLogger conf) []) = Ok sl /\
    tl (output_paths (zap.base (logger sl))) = ["app.log"].
Proof.
  intros conf.
  destruct (NewService_output_paths trim_ascii_space (fun _ => None)
              conf [] eq_refl) as (sl & Hsl & _ & Hok & _).
  exists sl. split; [exact Hsl |].
  destruct (Hok eq_refl) as (_ & _ & _ & Htl & _).
  apply Htl. vm_compute. discriminate.
Defined.

(** C8 fails as stated for "every configuration": with a file name that is
    not blank but cannot be opened, [Build] fails and the logger returned is
    the example logger, whose only output path is standard output. *)
Lemma NewService_output_paths_fallback :
  let conf := config.mkLogger "/nonexistent/app.log" "INFO" 10 1 1 false in
  let failing := fun _ : zap.Config =>
    Some "open /nonexistent/app.log: no such file or directory" in
  (exists sl,
     fst (NewService trim_ascii_space failing (VLogger conf) []) = Ok sl /\
     trim_ascii_space (config.LogFileName conf) <> "" /\
     output_paths (zap.base (logger sl)) = ["stdout"] /\
     ~ In (config.LogFileName conf) (output_paths (zap.base (logger sl)))) /\
  ~ (forall (build_error : zap.Config -> option string)
            (conf : config.Logger),
       exists sl,
         fst (NewService trim_ascii_space build_error (VLogger conf) [])
           = Ok sl /\
         (In (config.LogFileName conf)
             (tl (output_paths (zap.base (logger sl)))) <->
          trim_ascii_space (config.LogFileName conf) <> "")).
Proof.
  intros conf failing. split.
  - eexists. split; [reflexivity |]. split; [vm_compute; discriminate |].
    split; [reflexivity |].
    cbn. intros [H | []]. discriminate H.
  - intros H. destruct (H failing conf) as (sl & Hsl & Hiff).
    cbn in Hsl. injection Hsl as <-.
    cbn in Hiff. apply (proj2 Hiff). vm_compute. discriminate.
Qed.


(** ** The asynchronous writer: histories and the invariant *)

Lemma calls_of_app (h1 h2 : list wevent) :
  calls_of (h1 ++ h2) = calls_of h1 ++ calls_of h2.
Proof.
  induction h1 as [| e h1 IH]; [reflexivity |].
  destruct e; simpl; rewrite IH; reflexivity.
Qed.

Lemma called_app (h1 h2 : list wevent) :
  called (h1 ++ h2) = called h1 ++ called h2.
Proof. unfold called. rewrite calls_of_app. apply map_app. Qed.

Lemma returns_of_app (h1 h2 : list wevent) :
  returns_of (h1 ++ h2) = returns_of h1 ++ returns_of h2.
Proof.
  induction h1 as [| e h1 IH]; [reflexivity |].
  destruct e; simpl; rewrite IH; reflexivity.
Qed.

Lemma received_app (h1 h2 : list wevent) :
  received (h1 ++ h2) = received h1 ++ received h2.
Proof.
  induction h1 as [| e h1 IH]; [reflexivity |].
  destruct e; simpl; rewrite IH; reflexivity.
Qed.

Lemma io_writes_app (h1 h2 : list wevent) :
  io_writes (h1 ++ h2) = io_writes h1 ++ io_writes h2.
Proof.
  induction h1 as [| e h1 IH]; [reflexivity |].
  destruct e; simpl; rewrite IH; reflexivity.
Qed.

Lemma stdout_writes_app (h1 h2 : list wevent) :
  stdout_writes (h1 ++ h2) = stdout_writes h1 ++ stdout_writes h2.
Proof.
  induction h1 as [| e h1 IH]; [reflexivity |].
  destruct e; simpl; rewrite IH; reflexivity.
Qed.

Ltac read_history :=
  unfold called;
  repeat rewrite ?calls_of_app, ?returns_of_app, ?received_app,
    ?io_writes_app, ?stdout_writes_app, ?map_app, ?flat_map_app;
  cbn [calls_of returns_of received io_writes stdout_writes map flat_map
       app in_hand half_done both_sinks fst snd];
  repeat rewrite ?app_nil_r.

(** Membership in a history that grew at its end. *)
Ltac split_in H :=
  unfold Write_result in H;
  repeat (apply in_app_or in H; destruct H as [H | H]);
  try (simpl in H;
       repeat (destruct H as [H | H]; try discriminate H; try contradiction)).

Lemma len_snoc {A : Type} (s : list A) (x : A) : len (s ++ [x]) = len s + 1.
Proof. rewrite len_app. reflexivity. Qed.

Lemma len_cons {A : Type} (x : A) (s : list A) : len (x :: s) = len s + 1.
Proof. unfold len. cbn [List.length]. lia. Qed.

(** The writer [NewBufwriter] returns satisfies the invariant. *)
Lemma NewBufwriter_inv (max_chan_cap n : Z) (logFile : string) (c0 : writer) :
  NewBufwriter max_chan_cap n logFile = Ok c0 ->
  writer_inv (default_sink logFile) AtRange c0 /\ qcap c0 = n.
Proof.
  unfold NewBufwriter, make_chan.
  destruct ((n <? 0) || (runtime_max_chan_cap <? n)) eqn:Hrange;
    [discriminate |].
  destruct (max_chan_cap <? n); [discriminate |].
  apply orb_false_elim in Hrange. destruct Hrange as [Hpos _].
  apply Z.ltb_ge in Hpos.
  intros H. injection H as <-. split; [| reflexivity].
  constructor; cbn; try reflexivity; try tauto; try lia;
    try discriminate.
  - exists []. split; reflexivity.
  - constructor.
Qed.

Lemma set_pc_single (k : worker_pc) (g : goroutine) :
  set_pc 0 k [g] = [ {| pc := k; sink := sink g |} ].
Proof. reflexivity. Qed.

(** An event of the old history is in the grown one. *)
Ltac in_history := repeat rewrite in_app_iff; simpl; auto 10.

Lemma full_or_no_sender (c : writer) :
  (sendq c <> [] -> len (qbuf c) = qcap c) ->
  len (qbuf c) < qcap c -> sendq c = [].
Proof.
  intros Hfull Hroom. destruct (sendq c) as [| x s]; [reflexivity |].
  assert (len (qbuf c) = qcap c) by (apply Hfull; discriminate). lia.
Qed.

(** [Write] keeps the invariant; a parked worker leaves with the buffer. *)
Lemma Write_inv (l : lumberjack.Logger) (k : worker_pc) (c : writer)
    (p : bytes) :
  writer_inv l k c ->
  writer_inv l (match k with Parked => AtStdoutWrite p | _ => k end)
    (Write p c).
Proof.
  intros I. destruct I as [Hw Hrq Hpk Hcap Hlen Hfull Hfifo Hio Hids Hnd Hbl Hret Hdone Hrd].
  assert (Hfresh : forall q, ~ In (ncalls c, q) (sendq c)).
  { intros q Hin. apply Hbl in Hin. destruct Hin as [Hin _].
    apply Hids in Hin. lia. }
  assert (Hnoret : forall n err, ~ In (Return (ncalls c) n err) (history c)).
  { intros n err Hin. apply Hret in Hin. destruct Hin as (q & Hin & _).
    apply Hids in Hin. lia. }
  destruct Hio as (done & Hrecv & Hwr).
  unfold called in Hfifo.
  assert (Hgrow_ids : forall h', (forall id q, In (Call id q) h' -> id = ncalls c) ->
            forall id q, In (Call id q) (history c ++ h') -> (id < S (ncalls c))%nat).
  { intros h' Hnew id q Hin. apply in_app_or in Hin. destruct Hin as [Hin | Hin].
    - apply Hids in Hin. lia.
    - apply Hnew in Hin. lia. }
  unfold Write, chansend. cbn [recvq log_event count_call qbuf qcap].
  rewrite Hrq.
  destruct (match k with Parked => true | _ => false end) eqn:Hk.
  - (* the worker is parked: direct hand-off *)
    destruct k; try discriminate Hk. clear Hk.
    destruct (Hpk eq_refl) as [Hq Hs].
    rewrite Hq, Hs in *.
    constructor; cbn; rewrite ?Hw, ?Hq, ?Hs; try reflexivity; try lia;
      try discriminate; try tauto; try (constructor; fail).
    + read_history. rewrite Hfifo. simpl. rewrite !app_nil_r. reflexivity.
    + exists done. read_history. rewrite Hrecv, Hwr. read_history. split; reflexivity.
    + intros id q Hin. rewrite <- !app_assoc in Hin. revert id q Hin. apply Hgrow_ids.
      intros id q Hin. simpl in Hin. unfold Write_result in Hin.
      destruct Hin as [Hin | [Hin | [Hin | []]]]; try discriminate Hin.
      injection Hin as <- _. reflexivity.
    + intros id q [].
    + intros id n err Hin. split_in Hin.
      * apply Hret in Hin. destruct Hin as (q & Hin & Hn & He).
        exists q. split; [in_history | auto].
      * unfold Write_result in Hin. injection Hin as <- <- <-.
        exists p. split; [in_history | auto].
    + intros id q Hin. right. unfold Write_result. split_in Hin.
      * destruct (Hdone id q Hin) as [[] | Hr]. in_history.
      * injection Hin as <- <-. in_history.
    + intros w q Hin. split_in Hin; [apply (Hrd w q Hin) |].
      injection Hin as <- _. reflexivity.
  - assert (Hrq' : match k with Parked => [0%nat] | _ => [] end = @nil nat)
      by (destruct k; try reflexivity; discriminate Hk).
    assert (Hk' : match k with Parked => AtStdoutWrite p | _ => k end = k)
      by (destruct k; try reflexivity; discriminate Hk).
    rewrite Hrq', Hk'. rewrite Hrq' in Hrq.
    assert (Hpk' : k = Parked -> False) by (intros ->; discriminate Hk).
    destruct (Z.ltb_spec (len (qbuf c)) (qcap c)) as [Hroom | Hfullq].
    + (* room in the buffer *)
      pose proof (full_or_no_sender c Hfull Hroom) as Hs.
      rewrite Hs in *.
      constructor; cbn; rewrite ?Hw, ?Hs, ?Hrq'; try reflexivity; try lia;
        try discriminate; try tauto; try (constructor; fail).
      * rewrite len_snoc. lia.
      * read_history. rewrite Hfifo. simpl. rewrite ?app_nil_r, <- ?app_assoc. reflexivity.
      * exists done. read_history. rewrite Hrecv, Hwr. split; reflexivity.
      * intros id q Hin. rewrite <- !app_assoc in Hin. revert id q Hin. apply Hgrow_ids.
        intros id q Hin. simpl in Hin. unfold Write_result in Hin.
        destruct Hin as [Hin | [Hin | []]]; try discriminate Hin.
        injection Hin as <- _. reflexivity.
      * intros id q [].
      * intros id n err Hin. split_in Hin.
        -- apply Hret in Hin. destruct Hin as (q & Hin & Hn & He).
           exists q. split; [in_history | auto].
        -- unfold Write_result in Hin. injection Hin as <- <- <-.
           exists p. split; [in_history | auto].
      * intros id q Hin. right. unfold Write_result. split_in Hin.
        -- destruct (Hdone id q Hin) as [[] | Hr]. in_history.
        -- injection Hin as <- <-. in_history.
      * intros w q Hin. split_in Hin. apply (Hrd w q Hin).
    + (* the buffer is full: the caller blocks *)
      constructor; cbn; rewrite ?Hw, ?Hrq'; try reflexivity; try lia;
        try discriminate; try tauto.
      * read_history. rewrite Hfifo. rewrite <- !app_assoc. reflexivity.
      * exists done. read_history. rewrite Hrecv, Hwr. split; reflexivity.
      * apply Hgrow_ids.
        intros id q Hin. simpl in Hin. destruct Hin as [Hin | []].
        injection Hin as <- _. reflexivity.
      * rewrite map_app. simpl. apply NoDup_app; [exact Hnd | repeat constructor; intros [] | ].
        intros x Hx [Hy | []]. subst x. apply in_map_iff in Hx.
        destruct Hx as ([id q] & Hid & Hin). simpl in Hid. subst id.
        apply (Hfresh q Hin).
      * intros id q Hin. apply in_app_or in Hin. destruct Hin as [Hin | Hin].
        -- destruct (Hbl id q Hin) as [Hc Hn]. split; [in_history |].
           intros n err Hr. split_in Hr. apply (Hn n err Hr).
        -- simpl in Hin. destruct Hin as [Hin | []]. injection Hin as <- <-.
           split; [in_history |].
           intros n err Hr. split_in Hr. apply (Hnoret n err Hr).
      * intros id n err Hin. split_in Hin.
        apply Hret in Hin. destruct Hin as (q & Hin & Hn & He).
        exists q. split; [in_history | auto].
      * intros id q Hin. split_in Hin.
        -- destruct (Hdone id q Hin) as [Hb | Hr]; [left | right]; in_history.
        -- injection Hin as <- <-. left. in_history.
      * intros w q Hin. split_in Hin. apply (Hrd w q Hin).
Qed.

(** A step of a worker that does not exist changes nothing. *)
Lemma worker_step_other (l : lumberjack.Logger) (k : worker_pc) (c : writer)
    (w : nat) (o : io_outcome) :
  writer_inv l k c -> worker_step (S w) o c = c.
Proof.
  intros I. unfold worker_step. rewrite (inv_worker _ _ _ I).
  destruct w; reflexivity.
Qed.

(** A step of the worker keeps the invariant. *)
Lemma worker_step_inv (l : lumberjack.Logger) (k : worker_pc) (c : writer)
    (o : io_outcome) :
  writer_inv l k c ->
  writer_inv l (after_worker_step k c) (worker_step 0 o c).
Proof.
  intros I. destruct I as [Hw Hrq Hpk Hcap Hlen Hfull Hfifo Hio Hids Hnd Hbl Hret Hdone Hrd].
  destruct Hio as (done & Hrecv & Hwr).
  unfold called in Hfifo.
  assert (Hkeep : forall e, (forall id n err, e <> Return id n err) ->
            forall id n err, In (Return id n err) (history c ++ [e]) ->
            exists p, In (Call id p) (history c ++ [e]) /\ n = len p /\ err = None).
  { intros e He id n err Hin. apply in_app_or in Hin. destruct Hin as [Hin | Hin].
    - apply Hret in Hin. destruct Hin as (q & Hin & Hn & Herr).
      exists q. split; [in_history | auto].
    - destruct Hin as [Hin | []]. subst e. contradiction (He id n err). reflexivity. }
  assert (Hids' : forall e, (forall id q, e <> Call id q) ->
            forall id q, In (Call id q) (history c ++ [e]) -> (id < ncalls c)%nat).
  { intros e He id q Hin. apply in_app_or in Hin. destruct Hin as [Hin | Hin].
    - apply (Hids id q Hin).
    - destruct Hin as [Hin | []]. subst e. contradiction (He id q). reflexivity. }
  assert (Hbl' : forall e, (forall id n err, e <> Return id n err) ->
            forall id q, In (id, q) (sendq c) ->
            In (Call id q) (history c ++ [e]) /\
            forall n err, ~ In (Return id n err) (history c ++ [e])).
  { intros e He id q Hin. destruct (Hbl id q Hin) as [Hc Hn].
    split; [in_history |]. intros n err Hr.
    apply in_app_or in Hr. destruct Hr as [Hr | Hr]; [apply (Hn n err Hr) |].
    destruct Hr as [Hr | []]. subst e. contradiction (He id n err). reflexivity. }
  assert (Hdone' : forall e, (forall id q, e <> Call id q) ->
            forall id q, In (Call id q) (history c ++ [e]) ->
            In (id, q) (sendq c) \/
            In (Return id (len q) None) (history c ++ [e])).
  { intros e He id q Hin. apply in_app_or in Hin. destruct Hin as [Hin | Hin].
    - destruct (Hdone id q Hin) as [Hb | Hr]; [left; exact Hb | right; in_history].
    - destruct Hin as [Hin | []]. subst e. contradiction (He id q). reflexivity. }
  assert (Hrd' : forall h', (forall w q, In (Recv w q) h' -> w = 0%nat) ->
            forall w q, In (Recv w q) (history c ++ h') -> w = 0%nat).
  { intros h' He w q Hin. apply in_app_or in Hin. destruct Hin as [Hin | Hin].
    - apply (Hrd w q Hin).
    - apply (He w q Hin). }
  assert (Hrelease : forall (id : nat) (q r : bytes) (waiting : list (nat * bytes)),
            sendq c = (id, q) :: waiting ->
            forall id' q', In (Call id' q')
                             (history c ++ [Recv 0 r; Write_result id q]) ->
            In (id', q') waiting \/
            In (Return id' (len q') None)
               (history c ++ [Recv 0 r; Write_result id q])).
  { intros id q r waiting Hs id' q' Hin. split_in Hin.
    destruct (Hdone id' q' Hin) as [Hb | Hr]; [| right; in_history].
    rewrite Hs in Hb. destruct Hb as [Hb | Hb]; [| left; exact Hb].
    injection Hb as <- <-. right. unfold Write_result. in_history. }
  assert (Hrecv0 : forall (r : bytes) (e : wevent), (forall w q, e <> Recv w q) ->
            forall w q, In (Recv w q) [Recv 0 r; e] -> w = 0%nat).
  { intros r e He w q [Hin | [Hin | []]].
    - injection Hin as <- _. reflexivity.
    - subst e. contradiction (He w q). reflexivity. }
  unfold worker_step. rewrite Hw. cbn [nth_error pc sink].
  destruct k; cbn [after_worker_step].
  - (* AtRange: the receive *)
    unfold chanrecv. rewrite Hw.
    destruct (qbuf c) as [| p rest] eqn:Hq;
      destruct (sendq c) as [| [id q] waiting] eqn:Hs.
    + (* nothing to receive: park *)
      constructor; cbn; rewrite ?Hw, ?Hrq, ?Hq, ?Hs; try reflexivity; try lia;
        try discriminate; try tauto; try (constructor; fail).
      exists done. auto.
    + (* unbuffered channel: the element of the oldest blocked sender *)
      assert (Hidq : In (id, q) ((id, q) :: waiting)) by (left; reflexivity).
      destruct (Hbl id q Hidq) as [Hcall Hnr].
      simpl in Hnd. apply NoDup_cons_iff in Hnd. destruct Hnd as [Hnotin Hnd].
      constructor; cbn; rewrite ?Hw, ?Hrq, ?Hq, ?Hs; try reflexivity; try lia;
        try discriminate; try tauto.
      * intros _. apply Hfull. discriminate.
      * read_history. rewrite Hfifo. simpl. rewrite ?app_nil_r, <- ?app_assoc. simpl. reflexivity.
      * exists done. read_history. rewrite Hrecv, Hwr. read_history.
        split; reflexivity.
      * intros id' q' Hin. split_in Hin. apply (Hids id' q' Hin).
      * intros id' q' Hin.
        assert (Hin' : In (id', q') ((id, q) :: waiting)) by (right; exact Hin).
        destruct (Hbl id' q' Hin') as [Hc Hn]. split; [in_history |].
        intros n err Hr. split_in Hr; [apply (Hn n err Hr) |].
        unfold Write_result in Hr. injection Hr as <- _ _.
        apply Hnotin. apply in_map_iff. exists (id, q'). split; [reflexivity | exact Hin].
      * intros id' n err Hin. split_in Hin.
        -- apply Hret in Hin. destruct Hin as (q' & Hin & Hn & Herr).
           exists q'. split; [in_history | auto].
        -- unfold Write_result in Hin. injection Hin as <- <- <-.
           exists q. split; [in_history | auto].
      * apply (Hrelease id q _ waiting eq_refl).
      * apply Hrd'. apply Hrecv0. intros; discriminate.
    + (* a buffered element, no blocked sender *)
      rewrite len_cons in Hlen.
      constructor; cbn; rewrite ?Hw, ?Hrq, ?Hq, ?Hs; try reflexivity; try lia;
        try discriminate; try tauto; try (constructor; fail).
      * read_history. rewrite Hfifo. simpl. rewrite ?app_nil_r, <- ?app_assoc. simpl. reflexivity.
      * exists done. read_history. rewrite Hrecv, Hwr. read_history.
        split; reflexivity.
      * apply Hids'. intros; discriminate.
      * apply Hkeep. intros; discriminate.
      * apply Hdone'. intros; discriminate.
      * apply Hrd'. intros w q [Hin | []]. injection Hin as <- _. reflexivity.
    + (* a buffered element, and the oldest blocked sender moves in *)
      assert (Hidq : In (id, q) ((id, q) :: waiting)) by (left; reflexivity).
      destruct (Hbl id q Hidq) as [Hcall Hnr].
      simpl in Hnd. apply NoDup_cons_iff in Hnd. destruct Hnd as [Hnotin Hnd].
      assert (Hfull' : len (p :: rest) = qcap c) by (apply Hfull; discriminate).
      rewrite len_cons in Hfull', Hlen.
      constructor; cbn; rewrite ?Hw, ?Hrq, ?Hq, ?Hs; try reflexivity; try lia;
        try discriminate; try tauto.
      * rewrite len_snoc. lia.
      * intros _. rewrite len_snoc. lia.
      * read_history. rewrite Hfifo. simpl. rewrite ?app_nil_r, <- ?app_assoc. simpl. reflexivity.
      * exists done. read_history. rewrite Hrecv, Hwr. read_history.
        split; reflexivity.
      * intros id' q' Hin. split_in Hin. apply (Hids id' q' Hin).
      * intros id' q' Hin.
        assert (Hin' : In (id', q') ((id, q) :: waiting)) by (right; exact Hin).
        destruct (Hbl id' q' Hin') as [Hc Hn]. split; [in_history |].
        intros n err Hr. split_in Hr; [apply (Hn n err Hr) |].
        unfold Write_result in Hr. injection Hr as <- _ _.
        apply Hnotin. apply in_map_iff. exists (id, q'). split; [reflexivity | exact Hin].
      * intros id' n err Hin. split_in Hin.
        -- apply Hret in Hin. destruct Hin as (q' & Hin & Hn & Herr).
           exists q'. split; [in_history | auto].
        -- unfold Write_result in Hin. injection Hin as <- <- <-.
           exists q. split; [in_history | auto].
      * apply (Hrelease id q _ waiting eq_refl).
      * apply Hrd'. apply Hrecv0. intros; discriminate.
  - (* Parked *)
    constructor; auto. exists done. auto.
  - (* AtStdoutWrite *)
    constructor; cbn; rewrite ?Hw; try reflexivity; try lia;
      try discriminate; try tauto.
    + read_history. exact Hfifo.
    + exists done. read_history. rewrite Hrecv, Hwr. read_history.
      split; reflexivity.
    + apply Hids'. intros; discriminate.
    + apply Hbl'. intros; discriminate.
    + apply Hkeep. intros; discriminate.
    + apply Hdone'. intros; discriminate.
    + apply Hrd'. intros w q [Hin | []]. discriminate Hin.
  - (* AtFileWrite *)
    constructor; cbn; rewrite ?Hw; try reflexivity; try lia;
      try discriminate; try tauto.
    + read_history. exact Hfifo.
    + exists (done ++ [p]). read_history. rewrite Hrecv, Hwr. read_history.
      rewrite <- ?app_assoc. split; reflexivity.
    + apply Hids'. intros; discriminate.
    + apply Hbl'. intros; discriminate.
    + apply Hkeep. intros; discriminate.
    + apply Hdone'. intros; discriminate.
    + apply Hrd'. intros w q [Hin | []]. discriminate Hin.
Qed.

Lemma qcap_Write (p : bytes) (c : writer) : qcap (Write p c) = qcap c.
Proof.
  unfold Write, chansend. cbn [recvq log_event count_call qbuf qcap].
  destruct (recvq c); [| reflexivity].
  destruct (len (qbuf c) <? qcap c); reflexivity.
Qed.

Lemma qcap_worker_step (w : nat) (o : io_outcome) (c : writer) :
  qcap (worker_step w o c) = qcap c.
Proof.
  unfold worker_step. destruct (nth_error (workers c) w) as [g |]; [| reflexivity].
  destruct (pc g); try reflexivity.
  unfold chanrecv.
  destruct (qbuf c); destruct (sendq c) as [| [id q] waiting]; reflexivity.
Qed.

Lemma qcap_step (a : action) (c : writer) : qcap (step a c) = qcap c.
Proof. destruct a; [apply qcap_Write | apply qcap_worker_step]. Qed.

(** Every step keeps the invariant. *)
Lemma step_inv (l : lumberjack.Logger) (k : worker_pc) (c : writer)
    (a : action) :
  writer_inv l k c -> exists k', writer_inv l k' (step a c).
Proof.
  intros I. destruct a as [p | [| w] o]; cbn [step].
  - eexists. apply Write_inv. exact I.
  - eexists. apply worker_step_inv. exact I.
  - exists k. rewrite (worker_step_other l k c w o I). exact I.
Qed.

Lemma run_inv (l : lumberjack.Logger) (sched : list action) :
  forall (k : worker_pc) (c : writer),
  writer_inv l k c -> exists k', writer_inv l k' (run sched c).
Proof.
  induction sched as [| a sched IH]; intros k c I; cbn [run].
  - exists k. exact I.
  - destruct (step_inv l k c a I) as (k1 & I1). apply (IH k1 _ I1).
Qed.

Lemma run_app (s1 s2 : list action) (c : writer) :
  run (s1 ++ s2) c = run s2 (run s1 c).
Proof.
  revert c. induction s1 as [| a s1 IH]; intros c; [reflexivity |].
  cbn [app run]. apply IH.
Qed.

Lemma qcap_run (sched : list action) (c : writer) :
  qcap (run sched c) = qcap c.
Proof.
  revert c. induction sched as [| a sched IH]; intros c; [reflexivity |].
  cbn [run]. rewrite IH. apply qcap_step.
Qed.

(** What is known of every reachable writer. *)
Lemma reachable_inv (max_chan_cap n : Z) (logFile : string) (c : writer) :
  reachable max_chan_cap n logFile c ->
  qcap c = n /\ exists k, writer_inv (default_sink logFile) k c.
Proof.
  intros (c0 & sched & Hnew & ->).
  destruct (NewBufwriter_inv max_chan_cap n logFile c0 Hnew) as [I0 Hcap].
  split; [rewrite qcap_run; exact Hcap |].
  apply (run_inv _ sched AtRange c0 I0).
Qed.

Lemma reachable_run (max_chan_cap n : Z) (logFile : string) (c : writer)
    (sched : list action) :
  reachable max_chan_cap n logFile c -> reachable max_chan_cap n logFile (run sched c).
Proof.
  intros (c0 & s0 & Hnew & ->). exists c0, (s0 ++ sched).
  split; [exact Hnew | symmetry; apply run_app].
Qed.

(** ** [NewBufwriter] *)

(** C6, as the code has it: for a capacity [n] with [0 <= n] that [make]
    can allocate, within the runtime's limit and the memory of the machine,
    [NewBufwriter] makes an empty queue of capacity [n] and one worker, at
    the head of its loop, on a file sink with 500 MB, 10 backups, 7 days
    and no compression; that worker stays the only one and the only
    receiver.  A negative capacity and one past the runtime's limit panic in
    [make], and so does one there is no memory for. *)
Theorem NewBufwriter_allocates (max_chan_cap n : Z) (logFile : string) :
  0 <= n -> n <= runtime_max_chan_cap -> n <= max_chan_cap ->
  let c0 :=
    {| qcap := n; qbuf := []; sendq := []; recvq := [];
       workers :=
         [ {| pc := AtRange;
              sink := {| lumberjack.Filename := logFile;
                         lumberjack.MaxSize := 500;
                         lumberjack.MaxBackups := 10;
                         lumberjack.MaxAge := 7;
                         lumberjack.Compress := false |} |} ];
       ncalls := 0; history := [] |} in
  NewBufwriter max_chan_cap n logFile = Ok c0 /\
  (forall sched, List.length (workers (run sched c0)) = 1%nat /\
                 qcap (run sched c0) = n /\
                 forall w p, In (Recv w p) (history (run sched c0)) -> w = 0%nat) /\
  (forall m, m < 0 \/ runtime_max_chan_cap < m ->
     NewBufwriter max_chan_cap m logFile = Panic "makechan: size out of range") /\
  (forall m, max_chan_cap < m ->
     exists msg, NewBufwriter max_chan_cap m logFile = Panic msg).
Proof.
  intros Hn Hrt Hmax c0.
  assert (Hnew : NewBufwriter max_chan_cap n logFile = Ok c0).
  { unfold NewBufwriter, make_chan.
    destruct (Z.ltb_spec n 0) as [Hneg | _]; [lia |].
    destruct (Z.ltb_spec runtime_max_chan_cap n) as [Hbig | _]; [lia |].
    destruct (Z.ltb_spec max_chan_cap n) as [Hbig | _]; [lia | reflexivity]. }
  split; [exact Hnew |]. split; [| split].
  - intros sched.
    assert (Hreach : reachable max_chan_cap n logFile (run sched c0))
      by (exists c0, sched; split; [exact Hnew | reflexivity]).
    destruct (reachable_inv _ _ _ _ Hreach) as (Hcap & k & I).
    split; [rewrite (inv_worker _ _ _ I); reflexivity |].
    split; [exact Hcap | exact (inv_reader _ _ _ I)].
  - intros m Hm. unfold NewBufwriter, make_chan.
    destruct (Z.ltb_spec m 0) as [_ | Hpos]; [reflexivity |].
    destruct (Z.ltb_spec runtime_max_chan_cap m) as [_ | Hfit];
      [reflexivity | lia].
  - intros m Hm. unfold NewBufwriter, make_chan.
    destruct ((m <? 0) || (runtime_max_chan_cap <? m));
      [eexists; reflexivity |].
    destruct (Z.ltb_spec max_chan_cap m) as [_ | Hfit];
      [eexists; reflexivity | lia].
Qed.

(** The theorem at capacity 4, on a machine with memory for a million
    buffers. *)
Lemma NewBufwriter_allocates_witness :
  exists c0, NewBufwriter 1000000 4 "app.log" = Ok c0 /\ qcap c0 = 4.
Proof.
  eexists. split.
  - apply (NewBufwriter_allocates 1000000 4 "app.log").
    + lia.
    + vm_compute. discriminate.
    + lia.
  - reflexivity.
Defined.

(** C6 fails as stated for "every capacity": with capacity -1, and with
    the capacities [2^48] and [2^63 - 1] that pass the runtime's limit, no
    queue is made, [make] panics, whatever memory the machine has. *)
Lemma NewBufwriter_capacity_out_of_range :
  NewBufwriter runtime_max_chan_cap (-1) "app.log"
    = Panic "makechan: size out of range" /\
  NewBufwriter runtime_max_chan_cap (2 ^ 48) "app.log"
    = Panic "makechan: size out of range" /\
  NewBufwriter runtime_max_chan_cap (2 ^ 63 - 1) "app.log"
    = Panic "makechan: size out of range" /\
  (forall max_chan_cap : Z,
     ~ (forall (n : Z) (logFile : string),
          exists c, NewBufwriter max_chan_cap n logFile = Ok c /\
                    qcap c = n)).
Proof.
  split; [reflexivity |]. split; [reflexivity |]. split; [reflexivity |].
  intros max_chan_cap H. destruct (H (-1) "app.log") as (c & Hc & _).
  discriminate Hc.
Qed.

(** ** [bufwriter.Write] *)

(** What one call of [Write] does, by the state of the channel. *)
Lemma Write_cases (c : writer) (p : bytes) :
  let id := ncalls c in
  let c' := Write p c in
  ncalls c' = S id /\
  ((exists w parked,
      recvq c = w :: parked /\ recvq c' = parked /\
      nth_error (workers c') w =
        option_map (fun g => {| pc := AtStdoutWrite p; sink := sink g |})
                   (nth_error (workers c) w) /\
      qbuf c' = qbuf c /\ sendq c' = sendq c /\
      history c' = history c ++ [Call id p; Recv w p; Return id (len p) None])
   \/
   (recvq c = [] /\ len (qbuf c) < qcap c /\
    qbuf c' = qbuf c ++ [p] /\ sendq c' = sendq c /\ workers c' = workers c /\
    history c' = history c ++ [Call id p; Return id (len p) None])
   \/
   (recvq c = [] /\ qcap c <= len (qbuf c) /\
    qbuf c' = qbuf c /\ sendq c' = sendq c ++ [(id, p)] /\
    workers c' = workers c /\
    history c' = history c ++ [Call id p])).
Proof.
  intros id c'. subst id c'.
  unfold Write, chansend. cbn [recvq log_event count_call qbuf qcap].
  destruct (recvq c) as [| w parked] eqn:Hrq.
  - destruct (Z.ltb_spec (len (qbuf c)) (qcap c)) as [Hroom | Hfullq];
      cbn; (split; [reflexivity |]); right; [left | right];
      rewrite <- ?app_assoc; repeat split; auto.
  - cbn. split; [reflexivity |]. left. exists w, parked.
    rewrite <- !app_assoc. repeat split; auto.
    clear Hrq. generalize (workers c) as ws.
    induction w as [| w IH]; intros [| g ws]; cbn; auto.
Qed.

Lemma returns_of_forget (h : list wevent) :
  returns_of (map forget_outcome h) = returns_of h.
Proof.
  induction h as [| e h IH]; [reflexivity |].
  destruct e; cbn; rewrite ?IH; reflexivity.
Qed.

(** Forgetting outcomes commutes with every step: no step looks at them. *)
Lemma forget_step (a : action) (c : writer) :
  forget (step a c) = step (calm a) (forget c).
Proof.
  destruct a as [p | w o]; cbn [step calm].
  - unfold Write, chansend, forget.
    cbn [recvq log_event count_call qbuf qcap sendq workers ncalls history].
    destruct (recvq c) as [| w parked].
    + destruct (len (qbuf c) <? qcap c); cbn; rewrite !map_app; reflexivity.
    + cbn. rewrite !map_app. reflexivity.
  - unfold worker_step, forget. cbn [workers].
    destruct (nth_error (workers c) w) as [g |]; [| reflexivity].
    destruct (pc g); cbn; rewrite ?map_app; try reflexivity.
    unfold chanrecv. cbn [qbuf sendq].
    destruct (qbuf c); destruct (sendq c) as [| [id q] waiting];
      cbn; rewrite ?map_app; reflexivity.
Qed.

Lemma forget_run (sched : list action) (c : writer) :
  forget (run sched c) = run (map calm sched) (forget c).
Proof.
  revert c. induction sched as [| a sched IH]; intros c; [reflexivity |].
  cbn [run map]. rewrite IH, forget_step. reflexivity.
Qed.

(** C1: a call of [Write] puts its buffer, as it is, at the back of the
    queue (or hands it to the waiting worker, or waits with it as the newest
    blocked sender), and what it returns is [len(buf)] and a nil error; in
    every run each value returned is that of its call, and two runs that
    differ only in the outcomes of the writes to standard output and to the
    file return the same values in the same order. *)
Theorem Write_enqueues_and_reports_length :
  (forall (c : writer) (p : bytes),
     let id := ncalls c in
     let c' := Write p c in
     (exists w parked,
        recvq c = w :: parked /\ qbuf c' = qbuf c /\ sendq c' = sendq c /\
        history c' = history c ++ [Call id p; Recv w p; Return id (len p) None])
     \/
     (recvq c = [] /\ len (qbuf c) < qcap c /\
      qbuf c' = qbuf c ++ [p] /\ sendq c' = sendq c /\
      history c' = history c ++ [Call id p; Return id (len p) None])
     \/
     (recvq c = [] /\ qcap c <= len (qbuf c) /\
      qbuf c' = qbuf c /\ sendq c' = sendq c ++ [(id, p)] /\
      history c' = history c ++ [Call id p])) /\
  (forall (max_chan_cap n : Z) (logFile : string) (c : writer),
     reachable max_chan_cap n logFile c ->
     forall id m err, In (Return id m err) (history c) ->
     exists p, In (Call id p) (history c) /\ m = len p /\ err = None) /\
  (forall (c : writer) (s1 s2 : list action),
     map calm s1 = map calm s2 ->
     returns_of (history (run s1 c)) = returns_of (history (run s2 c)) /\
     qbuf (run s1 c) = qbuf (run s2 c) /\
     sendq (run s1 c) = sendq (run s2 c)).
Proof.
  split; [| split].
  - intros c p id c'.
    destruct (Write_cases c p) as (_ & [H | [H | H]]).
    + left. destruct H as (w & parked & Hrq & _ & _ & Hq & Hs & Hh).
      exists w, parked. auto.
    + right. left. tauto.
    + right. right. tauto.
  - intros max_chan_cap n logFile c Hreach id m err Hin.
    destruct (reachable_inv _ _ _ _ Hreach) as (_ & k & I).
    apply (inv_returns _ _ _ I id m err Hin).
  - intros c s1 s2 Hsame.
    assert (Hforget : forget (run s1 c) = forget (run s2 c))
      by (rewrite !forget_run, Hsame; reflexivity).
    split; [| split].
    + rewrite <- (returns_of_forget (history (run s1 c))).
      rewrite <- (returns_of_forget (history (run s2 c))).
      change (returns_of (history (forget (run s1 c))) =
              returns_of (history (forget (run s2 c)))).
      rewrite Hforget. reflexivity.
    + change (qbuf (forget (run s1 c)) = qbuf (forget (run s2 c))).
      rewrite Hforget. reflexivity.
    + change (sendq (forget (run s1 c)) = sendq (forget (run s2 c))).
      rewrite Hforget. reflexivity.
Qed.

(** ** The worker loop *)

Lemma stdout_writes_io (h : list wevent) :
  stdout_writes h = only_stdout (io_writes h).
Proof.
  induction h as [| e h IH]; [reflexivity |].
  destruct e; cbn; rewrite ?IH; reflexivity.
Qed.

Lemma only_stdout_both_sinks (l : lumberjack.Logger) (ps : list bytes) :
  only_stdout (flat_map (both_sinks l) ps) = ps.
Proof.
  induction ps as [| p ps IH]; [reflexivity |].
  cbn. rewrite IH. reflexivity.
Qed.

(** A worker step makes no call of [Write]. *)
Lemma called_worker_step (w : nat) (o : io_outcome) (c : writer) :
  called (history (worker_step w o c)) = called (history c).
Proof.
  unfold worker_step. destruct (nth_error (workers c) w) as [g |]; [| reflexivity].
  destruct (pc g); cbn; try reflexivity; try (read_history; reflexivity).
  unfold chanrecv.
  destruct (qbuf c); destruct (sendq c) as [| [id q] waiting]; cbn;
    try reflexivity; read_history; reflexivity.
Qed.

(** Each worker step works off one unit of the backlog, whatever the
    outcome of its write. *)
Lemma backlog_step (l : lumberjack.Logger) (k : worker_pc) (c : writer)
    (o : io_outcome) :
  writer_inv l k c ->
  backlog (after_worker_step k c) (worker_step 0 o c) = pred (backlog k c).
Proof.
  intros I. unfold worker_step. rewrite (inv_worker _ _ _ I).
  cbn [nth_error pc]. unfold backlog.
  destruct k; cbn [after_worker_step qbuf sendq].
  - unfold chanrecv.
    destruct (qbuf c) as [| p rest]; destruct (sendq c) as [| [id q] waiting];
      cbn [qbuf sendq List.length]; rewrite ?length_app; cbn [List.length]; lia.
  - destruct (inv_parked _ _ _ I eq_refl) as [-> ->]. reflexivity.
  - lia.
  - lia.
Qed.

(** Left alone for as many steps as its backlog, the worker has written
    every buffer passed to [Write] to both sinks, in call order. *)
Lemma worker_drains (l : lumberjack.Logger) (outs : list io_outcome) :
  forall (k : worker_pc) (c : writer),
  writer_inv l k c ->
  (backlog k c <= List.length outs)%nat ->
  let c' := run (map (DoWorker 0) outs) c in
  called (history c') = called (history c) /\
  io_writes (history c') = flat_map (both_sinks l) (called (history c)) /\
  qbuf c' = [] /\ sendq c' = [].
Proof.
  induction outs as [| o outs IH]; intros k c I Hlog; cbn [map run].
  - cbn [List.length] in Hlog. unfold backlog in Hlog.
    destruct (qbuf c) as [| p rest] eqn:Hq; [| cbn in Hlog; lia].
    destruct (sendq c) as [| x waiting] eqn:Hs; [| cbn in Hlog; lia].
    destruct (inv_io _ _ _ I) as (done & Hrecv & Hwr).
    pose proof (inv_fifo _ _ _ I) as Hfifo. rewrite Hq, Hs in Hfifo.
    cbn in Hfifo. rewrite app_nil_r in Hfifo.
    destruct k; cbn in Hlog; try lia; cbn in Hrecv, Hwr;
      rewrite app_nil_r in Hrecv, Hwr;
      rewrite Hfifo, Hrecv, Hwr; repeat split; auto.
  - pose proof (worker_step_inv l k c o I) as I1.
    pose proof (backlog_step l k c o I) as Hstep.
    cbn [List.length] in Hlog.
    destruct (IH _ _ I1) as (Hcalled & Hio & Hq & Hs); [lia |].
    cbn [step]. rewrite Hcalled, Hio, called_worker_step. auto.
Qed.

(** C2: in every run the worker takes the buffers in the order in which
    [Write] was called, and writes each buffer it took to standard output
    and then to the file sink; whatever the outcomes of these writes (a
    failing file among them), the worker goes on, and after enough steps
    everything passed to [Write] has been written to standard output, in
    call order. *)
Theorem worker_writes_in_call_order (max_chan_cap n : Z) (logFile : string)
    (c : writer) :
  reachable max_chan_cap n logFile c ->
  let l := default_sink logFile in
  let h := history c in
  called h = received h ++ qbuf c ++ map snd (sendq c) /\
  (exists done k,
     received h = done ++ in_hand k /\
     io_writes h = flat_map (both_sinks l) done ++ half_done k) /\
  (forall outs : list io_outcome,
     (3 * (List.length (qbuf c) + List.length (sendq c)) + 2
      <= List.length outs)%nat ->
     let c' := run (map (DoWorker 0) outs) c in
     io_writes (history c') = flat_map (both_sinks l) (called h) /\
     stdout_writes (history c') = called h).
Proof.
  intros Hreach l h.
  destruct (reachable_inv _ _ _ _ Hreach) as (_ & k & I).
  split; [exact (inv_fifo _ _ _ I) |]. split.
  - destruct (inv_io _ _ _ I) as (done & Hrecv & Hwr).
    exists done, k. auto.
  - intros outs Hlen c'.
    assert (Hlog : (backlog k c <= List.length outs)%nat)
      by (unfold backlog; destruct k; lia).
    destruct (worker_drains l outs k c I Hlog) as (_ & Hio & _).
    split; [exact Hio |].
    rewrite stdout_writes_io. subst c'. rewrite Hio.
    apply only_stdout_both_sinks.
Qed.

(** ** Blocking on a full queue *)

Lemma history_step_grows (a : action) (c : writer) :
  exists h', history (step a c) = history c ++ h'.
Proof.
  destruct a as [p | w o]; cbn [step].
  - destruct (Write_cases c p) as (_ & [H | [H | H]]).
    + destruct H as (w & parked & _ & _ & _ & _ & _ & ->). eexists. reflexivity.
    + destruct H as (_ & _ & _ & _ & _ & ->). eexists. reflexivity.
    + destruct H as (_ & _ & _ & _ & _ & ->). eexists. reflexivity.
  - unfold worker_step.
    destruct (nth_error (workers c) w) as [g |];
      [| exists []; symmetry; apply app_nil_r].
    destruct (pc g); cbn; try (eexists; reflexivity);
      try (exists []; symmetry; apply app_nil_r).
    unfold chanrecv.
    destruct (qbuf c); destruct (sendq c) as [| [id q] waiting]; cbn;
      try (eexists; reflexivity); exists []; symmetry; apply app_nil_r.
Qed.

Lemma history_run_grows (sched : list action) (c : writer) (e : wevent) :
  In e (history c) -> In e (history (run sched c)).
Proof.
  revert c. induction sched as [| a sched IH]; intros c Hin; [exact Hin |].
  cbn [run]. apply IH.
  destruct (history_step_grows a c) as (h' & ->).
  apply in_or_app. left. exact Hin.
Qed.

(** A blocked caller stays blocked through every step but a receive of the
    worker that finds it the oldest blocked sender; that receive lets its
    buffer into the queue (or takes it directly when the channel has no
    buffer) and makes its [Write] return [len(p), nil]. *)
Lemma blocked_until_receive (l : lumberjack.Logger) (k : worker_pc)
    (c : writer) (id : nat) (p : bytes) (a : action) :
  writer_inv l k c -> In (id, p) (sendq c) ->
  In (id, p) (sendq (step a c)) \/
  (exists o waiting r,
     a = DoWorker 0 o /\ k = AtRange /\
     sendq c = (id, p) :: waiting /\ sendq (step a c) = waiting /\
     history (step a c) =
       history c ++ [Recv 0 r; Return id (len p) None] /\
     ((exists rest, qbuf c = r :: rest /\ qbuf (step a c) = rest ++ [p]) \/
      (qbuf c = [] /\ r = p /\ qbuf (step a c) = []))).
Proof.
  intros I Hin. destruct a as [q | [| w] o]; cbn [step].
  - left. destruct (Write_cases c q) as (_ & [H | [H | H]]).
    + destruct H as (w & parked & _ & _ & _ & _ & -> & _). exact Hin.
    + destruct H as (_ & _ & _ & -> & _). exact Hin.
    + destruct H as (_ & _ & _ & -> & _). apply in_or_app. left. exact Hin.
  - unfold worker_step. rewrite (inv_worker _ _ _ I). cbn [nth_error pc].
    destruct k; try (left; exact Hin).
    unfold chanrecv.
    destruct (sendq c) as [| [id0 q0] waiting] eqn:Hs; [destruct Hin |].
    destruct Hin as [Hhead | Htail].
    + injection Hhead as -> ->. right.
      destruct (qbuf c) as [| r rest] eqn:Hq; cbn.
      * exists o, waiting, p. repeat split; auto.
      * exists o, waiting, r. repeat split; auto.
        left. exists rest. auto.
    + left. destruct (qbuf c); cbn; exact Htail.
  - left. rewrite (worker_step_other l k c w o I). exact Hin.
Qed.

(** C7: on a reachable writer whose queue holds as many buffers as its
    capacity, [Write] does not return before the worker receives: the caller
    is queued as the newest blocked sender with nothing returned (or, on a
    channel without buffer whose worker is already waiting, the worker
    receives the buffer at that moment); it stays so through every step but
    the worker's receive that releases it; and once the worker has run long
    enough the call has returned [len(p), nil] and the buffer has been
    written, so nothing is dropped.  The queue never holds more than its
    capacity, and below capacity a call returns at once: a writer of
    capacity 1 takes one pending buffer, and blocks on the next. *)
Theorem Write_blocks_when_full (max_chan_cap n : Z) (logFile : string) (c : writer)
    (p : bytes) :
  reachable max_chan_cap n logFile c ->
  len (qbuf c) = qcap c ->
  let id := ncalls c in
  let c1 := Write p c in
  (0 < n -> recvq c = []) /\
  ((recvq c = [] /\ sendq c1 = sendq c ++ [(id, p)] /\ qbuf c1 = qbuf c /\
    history c1 = history c ++ [Call id p])
   \/
   (n = 0 /\ recvq c = [0%nat] /\
    history c1 = history c ++ [Call id p; Recv 0 p; Return id (len p) None])) /\
  (forall sched, In (id, p) (sendq (run sched c1)) ->
     (forall m err, ~ In (Return id m err) (history (run sched c1))) /\
     forall a,
       In (id, p) (sendq (step a (run sched c1))) \/
       exists o r, a = DoWorker 0 o /\
         hd_error (sendq (run sched c1)) = Some (id, p) /\
         history (step a (run sched c1)) =
           history (run sched c1) ++ [Recv 0 r; Return id (len p) None]) /\
  (forall sched outs,
     let c2 := run sched c1 in
     (3 * (List.length (qbuf c2) + List.length (sendq c2)) + 2
      <= List.length outs)%nat ->
     let c3 := run (map (DoWorker 0) outs) c2 in
     In (Return id (len p) None) (history c3) /\
     In p (stdout_writes (history c3))) /\
  (forall c', reachable max_chan_cap n logFile c' -> len (qbuf c') <= n) /\
  (forall c' q, reachable max_chan_cap n logFile c' -> len (qbuf c') < n ->
     In (Return (ncalls c') (len q) None) (history (Write q c'))).
Proof.
  intros Hreach Hfull id c1.
  destruct (reachable_inv _ _ _ _ Hreach) as (Hcap & k & I).
  assert (Hreach1 : forall sched, reachable max_chan_cap n logFile (run sched c1)).
  { intros sched. change (run sched c1) with (run (DoWrite p :: sched) c).
    apply reachable_run. exact Hreach. }
  assert (Hcall : In (Call id p) (history c1)).
  { subst c1 id. destruct (Write_cases c p) as (_ & [H | [H | H]]).
    - destruct H as (w & parked & _ & _ & _ & _ & _ & ->). in_history.
    - destruct H as (_ & _ & _ & _ & _ & ->). in_history.
    - destruct H as (_ & _ & _ & _ & _ & ->). in_history. }
  assert (Hrq0 : 0 < n -> recvq c = []).
  { intros Hpos. rewrite (inv_recvq _ _ _ I).
    destruct k; try reflexivity.
    destruct (inv_parked _ _ _ I eq_refl) as [Hq _].
    rewrite Hq in Hfull. change (len (@nil bytes)) with 0 in Hfull. lia. }
  split; [exact Hrq0 |]. split; [| split; [| split; [| split]]].
  - subst c1 id. destruct (Write_cases c p) as (_ & [H | [H | H]]).
    + destruct H as (w & parked & Hrq & _ & _ & _ & _ & Hh).
      right. rewrite (inv_recvq _ _ _ I) in Hrq.
      destruct k; try discriminate Hrq. injection Hrq as <- <-.
      split; [| split; [apply (inv_recvq _ _ _ I) | exact Hh]].
      destruct (inv_parked _ _ _ I eq_refl) as [Hq _].
      rewrite Hq in Hfull. change (len (@nil bytes)) with 0 in Hfull. lia.
    + destruct H as (_ & Hroom & _). lia.
    + left. tauto.
  - intros sched Hin.
    destruct (reachable_inv _ _ _ _ (Hreach1 sched)) as (_ & k2 & I2).
    split; [exact (proj2 (inv_blocked _ _ _ I2 id p Hin)) |].
    intros a.
    destruct (blocked_until_receive _ _ _ id p a I2 Hin) as [Hstay | Hrel].
    + left. exact Hstay.
    + right. destruct Hrel as (o & waiting & r & -> & _ & Hs & _ & Hh & _).
      exists o, r. rewrite Hs. auto.
  - intros sched outs c2 Hlen c3.
    destruct (reachable_inv _ _ _ _ (Hreach1 sched)) as (_ & k2 & I2).
    assert (Hlog : (backlog k2 c2 <= List.length outs)%nat)
      by (unfold backlog; destruct k2; lia).
    destruct (worker_drains _ outs k2 c2 I2 Hlog) as (Hcalled & Hio & _ & Hs).
    fold c3 in Hcalled, Hio, Hs.
    assert (Hcall3 : In (Call id p) (history c3)).
    { subst c3 c2. apply history_run_grows, history_run_grows. exact Hcall. }
    assert (Hreach3 : reachable max_chan_cap n logFile c3)
      by (apply reachable_run; apply Hreach1).
    destruct (reachable_inv _ _ _ _ Hreach3) as (_ & k3 & I3).
    split.
    + destruct (inv_done _ _ _ I3 id p Hcall3) as [Hb | Hr]; [| exact Hr].
      rewrite Hs in Hb. destruct Hb.
    + rewrite stdout_writes_io, Hio, only_stdout_both_sinks, <- Hcalled.
      unfold called.
      assert (Hc : forall h, In (Call id p) h -> In (id, p) (calls_of h)).
      { induction h as [| e h IH]; [intros [] |].
        intros [-> | Hin]; [left; reflexivity |].
        destruct e; cbn; auto. }
      apply (in_map snd _ _ (Hc _ Hcall3)).
  - intros c' Hreach'.
    destruct (reachable_inv _ _ _ _ Hreach') as (Hcap' & k' & I').
    rewrite <- Hcap'. apply (inv_len _ _ _ I').
  - intros c' q Hreach' Hroom.
    destruct (reachable_inv _ _ _ _ Hreach') as (Hcap' & k' & I').
    destruct (Write_cases c' q) as (_ & [H | [H | H]]).
    + destruct H as (w & parked & _ & _ & _ & _ & _ & ->). in_history.
    + destruct H as (_ & _ & _ & _ & _ & ->). in_history.
    + destruct H as (_ & Hfullq & _). lia.
Qed.

(** ** The theorems at concrete runs *)

(** Two runs of the same schedule, one with every write failing: the calls
    of [Write] return the same. *)
Lemma Write_enqueues_and_reports_length_witness :
  let c0 := go_worker (default_sink "app.log")
              {| qcap := 1; qbuf := []; sendq := []; recvq := [];
                 workers := []; ncalls := 0; history := [] |} in
  let failing := [DoWrite [x68; x69]; DoWorker 0 IoOk;
                  DoWorker 0 (IoErr "broken pipe");
                  DoWorker 0 (IoErr "disk full"); DoWrite [x21]] in
  let fine := [DoWrite [x68; x69]; DoWorker 0 IoOk; DoWorker 0 IoOk;
               DoWorker 0 IoOk; DoWrite [x21]] in
  returns_of (history (run failing c0)) = returns_of (history (run fine c0)).
Proof.
  intros c0 failing fine.
  apply (proj2 (proj2 Write_enqueues_and_reports_length) c0 failing fine).
  reflexivity.
Defined.

(** Two buffers written to a writer of capacity 2 whose file sink fails
    every time: both reach standard output, in call order. *)
Lemma worker_writes_in_call_order_witness :
  let c0 := go_worker (default_sink "app.log")
              {| qcap := 2; qbuf := []; sendq := []; recvq := [];
                 workers := []; ncalls := 0; history := [] |} in
  let c := run [DoWrite [x68]; DoWrite [x69]] c0 in
  let outs := [IoOk; IoOk; IoErr "disk full"; IoOk; IoOk; IoErr "disk full";
               IoOk; IoOk] in
  stdout_writes (history (run (map (DoWorker 0) outs) c)) = [[x68]; [x69]].
Proof.
  intros c0 c outs.
  assert (Hreach : reachable runtime_max_chan_cap 2 "app.log" c).
  { exists c0, [DoWrite [x68]; DoWrite [x69]]. split; reflexivity. }
  apply (proj2 (proj2 (worker_writes_in_call_order runtime_max_chan_cap 2 "app.log" c Hreach)) outs).
  vm_compute. lia.
Defined.

(** A writer of capacity 1 that already holds one buffer: the next call is
    queued as a blocked sender. *)
Lemma Write_blocks_when_full_witness :
  let c0 := go_worker (default_sink "app.log")
              {| qcap := 1; qbuf := []; sendq := []; recvq := [];
                 workers := []; ncalls := 0; history := [] |} in
  let c := Write [x68] c0 in
  sendq (Write [x69] c) = [(1%nat, [x69])] /\ qbuf (Write [x69] c) = [[x68]].
Proof.
  intros c0 c.
  assert (Hreach : reachable runtime_max_chan_cap 1 "app.log" c).
  { exists c0, [DoWrite [x68]]. split; reflexivity. }
  assert (Hfull : len (qbuf c) = qcap c) by reflexivity.
  destruct (Write_blocks_when_full runtime_max_chan_cap 1 "app.log" c [x69] Hreach Hfull)
    as (_ & [Hblocked | Hdirect] & _).
  - destruct Hblocked as (_ & Hs & Hq & _). split; [exact Hs | exact Hq].
  - destruct Hdirect as (Hzero & _). discriminate Hzero.
Defined.

(** A string where the configuration is expected. *)
Lemma NewService_panics_unless_Logger_witness :
  NewService trim_ascii_space (fun _ => None) (VString "app.log") [] =
  (Panic "interface conversion: interface {} is not config.Logger", []).
Proof.
  apply (proj1 (proj2 (NewService_panics_unless_Logger trim_ascii_space
                         (fun _ => None) (VString "app.log") []))).
  discriminate.
Defined.

(** * Part III: further properties of the code *)

(** ** Level resolution, read backwards *)

(** X2: a level other than [INFO] comes only from the exact, case-sensitive
    name: [WARN], [ERROR], [FATAL] and [DEBUG] each from their own name,
    [PANIC] from "PANIC" or "DPANIC", and no string at all resolves to
    [DPANIC]. *)
Theorem GetLevel_preimages (l : string) :
  (GetLevel l = WARN <-> l = "WARN") /\
  (GetLevel l = ERROR <-> l = "ERROR") /\
  (GetLevel l = PANIC <-> l = "PANIC" \/ l = "DPANIC") /\
  (GetLevel l = FATAL <-> l = "FATAL") /\
  (GetLevel l = DEBUG <-> l = "DEBUG") /\
  (GetLevel l = INFO <-> l = "INFO" \/ ~ In l level_names) /\
  GetLevel l <> DPANIC /\
  level_value (GetLevel l) <> 3.
Proof.
  destruct (GetLevel_cases l)
    as [[E G] | [[E G] | [[E G] | [[E G] | [[E G] | [[E G] | [[E G] | [E G]]]]]]]];
    rewrite G; try subst l;
    repeat split; try discriminate; try reflexivity; try tauto;
    try (intros [H | H]; discriminate H);
    try (intros H; exfalso; apply E; rewrite H; simpl; tauto);
    try (intros [H | H]; [discriminate H | exfalso; apply H; simpl; tauto]);
    try (intros [H | H]; exfalso; apply E; rewrite H; simpl; tauto).
Qed.

(** ** [Error] on every argument list *)

Lemma printed_app (t1 t2 : list Event) :
  printed (t1 ++ t2) = printed t1 ++ printed t2.
Proof.
  induction t1 as [| e t1 IH]; [reflexivity |].
  destruct e; simpl; rewrite IH; reflexivity.
Qed.

(** [Error] on a non-empty argument list, by its last argument. *)
Lemma Error_run (s : standardLogger) (front : list value) (x : value)
    (t : list Event) :
  Error s (front ++ [x]) t =
  match as_error x with
  | Some (Ok m) =>
      (Ok tt,
       t ++ [Println [VString "errString"; VString m];
             LogCall (zap.WithOptions (logger s)
                        (zap.Fields [response_message m]))
               ErrorLevel (front ++ [VString " "; VString m])])
  | Some (Panic msg) => (Panic msg, t)
  | None =>
      (Ok tt,
       t ++ [LogCall (zap.WithOptions (logger s)
                        (zap.Fields [response_message "unknown"]))
               ErrorLevel (front ++ [x])])
  end.
Proof.
  unfold Error, bind. rewrite index_last.
  destruct (as_error x) as [[m | msg] |]; try reflexivity.
  cbn [call_Error]. unfold emit, ret, sugar_log, emit. rewrite slice_to_last.
  rewrite <- !app_assoc. reflexivity.
Qed.

(** X3: [Error] panics in exactly two cases: called with no argument, and
    called with a last argument that is an error whose [Error()] panics (a
    nil pointer of an error type, say); it then has printed and logged
    nothing.  On every other list it returns, makes one error-level call
    and no other, and prints its "errString" line exactly when the last
    argument is an error. *)
Theorem Error_panic_cases (s : standardLogger) (args : list value)
    (t : list Event) :
  ((exists msg, fst (Error s args t) = Panic msg) <->
   args = [] \/ exists msg, as_error (last args VNil) = Some (Panic msg)) /\
  ((exists msg, fst (Error s args t) = Panic msg) ->
   snd (Error s args t) = t) /\
  (args <> [] ->
   (forall msg, as_error (last args VNil) <> Some (Panic msg)) ->
   fst (Error s args t) = Ok tt /\
   (exists lg call_args,
      log_calls (snd (Error s args t)) =
      log_calls t ++ [(lg, ErrorLevel, call_args)] /\
      zap.base lg = zap.base (logger s)) /\
   printed (snd (Error s args t)) =
   printed t ++ match as_error (last args VNil) with
                | Some (Ok m) => [[VString "errString"; VString m]]
                | _ => []
                end).
Proof.
  destruct args as [| a rest].
  - split; [| split].
    + split; [intros _; left; reflexivity | intros _; eexists; reflexivity].
    + intros _. reflexivity.
    + intros H. contradiction H. reflexivity.
  - assert (Hne : a :: rest <> []) by discriminate.
    destruct (exists_last Hne) as (front & x & Heq). rewrite Heq.
    rewrite Error_run, last_last.
    destruct (as_error x) as [[m | msg] |]; cbn [fst snd];
      (split; [| split]).
    + split; [intros [msg Hmsg]; discriminate Hmsg |].
      intros [H | [msg H]]; [destruct front; discriminate H | discriminate H].
    + intros [msg Hmsg]. discriminate Hmsg.
    + intros _ _. split; [reflexivity |]. split.
      * eexists _, _. rewrite log_calls_app. cbn. split; reflexivity.
      * rewrite printed_app. reflexivity.
    + split; [intros _; right; exists msg; reflexivity |].
      intros _. exists msg. reflexivity.
    + intros _. reflexivity.
    + intros _ H. contradiction (H msg). reflexivity.
    + split; [intros [msg Hmsg]; discriminate Hmsg |].
      intros [H | [msg H]]; [destruct front; discriminate H | discriminate H].
    + intros [msg Hmsg]. discriminate Hmsg.
    + intros _ _. split; [reflexivity |]. split.
      * eexists _, _. rewrite log_calls_app. cbn. split; reflexivity.
      * rewrite printed_app. cbn. rewrite app_nil_r. reflexivity.
Qed.

(** The theorem at a two-element list ending in an error. *)
Lemma Error_panic_cases_witness :
  let s := {| logger := zap.Sugar zap.Example; log := None |} in
  fst (Error s [VString "save failed:"; VError "*errors.errorString" "boom"] [])
  = Ok tt.
Proof.
  intros s.
  apply (proj2 (proj2 (Error_panic_cases s
                  [VString "save failed:"; VError "*errors.errorString" "boom"]
                  []))).
  - discriminate.
  - intros msg. cbn. discriminate.
Defined.

(** ** More on [NewService] *)

Lemma build_calls_app (t1 t2 : list Event) :
  build_calls (t1 ++ t2) = build_calls t1 ++ build_calls t2.
Proof.
  induction t1 as [| e t1 IH]; [reflexivity |].
  destruct e; simpl; rewrite IH; reflexivity.
Qed.

Lemma sync_calls_app (t1 t2 : list Event) :
  sync_calls (t1 ++ t2) = sync_calls t1 ++ sync_calls t2.
Proof.
  induction t1 as [| e t1 IH]; [reflexivity |].
  destruct e; simpl; rewrite IH; reflexivity.
Qed.

Section ServiceFacts.

Variable TrimSpace : string -> string.
Variable build_error : zap.Config -> option string.

(** The [zap.Config] depends on the file name and the level only. *)
Lemma service_config_depends (conf1 conf2 : config.Logger) :
  config.LogFileName conf1 = config.LogFileName conf2 ->
  config.LoggingLevel conf1 = config.LoggingLevel conf2 ->
  service_config TrimSpace conf1 = service_config TrimSpace conf2.
Proof.
  intros Hname Hlevel. unfold service_config. rewrite Hname, Hlevel.
  reflexivity.
Qed.

(** X4: the size cap, the backup count, the retention days and the
    compression flag reach nothing but the registered file sink: two
    configurations with the same file name and level give the same
    [zap.Config], the same outcome of [Build], the same log calls and the
    same kind of logger, and with a blank file name the whole run of
    [NewService] is the same. *)
Theorem NewService_rotation_only_in_sink (conf1 conf2 : config.Logger)
    (t : list Event) :
  config.LogFileName conf1 = config.LogFileName conf2 ->
  config.LoggingLevel conf1 = config.LoggingLevel conf2 ->
  let r1 := NewService TrimSpace build_error (VLogger conf1) t in
  let r2 := NewService TrimSpace build_error (VLogger conf2) t in
  service_config TrimSpace conf1 = service_config TrimSpace conf2 /\
  fst r1 = fst r2 /\
  log_calls (snd r1) = log_calls (snd r2) /\
  build_calls (snd r1) = build_calls (snd r2) /\
  (TrimSpace (config.LogFileName conf1) = "" -> r1 = r2).
Proof.
  intros Hname Hlevel r1 r2. subst r1 r2.
  pose proof (service_config_depends conf1 conf2 Hname Hlevel) as Hcfg.
  rewrite !NewService_run. rewrite <- Hcfg.
  unfold service_prefix, has_log_file. rewrite <- Hcfg, <- Hname.
  split; [reflexivity |].
  destruct (build_error (service_config TrimSpace conf1));
    destruct (String.eqb_spec (TrimSpace (config.LogFileName conf1)) "")
      as [He | Hne]; cbn [negb fst snd];
    repeat split; try reflexivity; try contradiction;
    rewrite ?log_calls_app, ?build_calls_app; reflexivity.
Qed.

(** The sink of a configuration: its file name and rotation settings. *)
Lemma registered_sinks_service_prefix (conf : config.Logger) :
  registered_sinks (service_prefix TrimSpace build_error conf) =
  if has_log_file TrimSpace conf
  then [ {| lumberjack.Filename := config.LogFileName conf;
            lumberjack.MaxSize := config.LogFileSizeCappingInMBs conf;
            lumberjack.MaxBackups := config.MaxLogBackupsCount conf;
            lumberjack.MaxAge := config.MaxOldLogRetentionInDays conf;
            lumberjack.Compress := config.OldLogsCompressionRequired conf |} ]
  else [].
Proof. unfold service_prefix. destruct (has_log_file _ _); reflexivity. Qed.

Lemma build_calls_service_prefix (conf : config.Logger) :
  build_calls (service_prefix TrimSpace build_error conf) =
  [(service_config TrimSpace conf,
    build_error (service_config TrimSpace conf))].
Proof. unfold service_prefix. destruct (has_log_file _ _); reflexivity. Qed.

Lemma sink_in_force_app (t1 t2 : list Event) :
  sink_in_force (t1 ++ t2) =
  match sink_in_force t1 with
  | Some first => Some first
  | None => sink_in_force t2
  end.
Proof.
  induction t1 as [| e t1 IH]; [reflexivity |].
  destruct e; cbn; try exact IH.
  destruct (String.eqb scheme "lumberjack"); [reflexivity | exact IH].
Qed.

(** X5: [NewService] calls [zap.RegisterSink] for the scheme "lumberjack"
    exactly when the file name is not blank after trimming, once, with the
    file name as configured and the four rotation settings of the
    configuration, and before its one call of [Build].  The sink zap then
    holds for the scheme is the one of the first such call: where a sink
    was registered before, a later [NewService] leaves it in force and its
    own file name and rotation settings reach no sink. *)
Theorem NewService_registers_sink (conf : config.Logger) (t : list Event) :
  let r := NewService TrimSpace build_error (VLogger conf) t in
  let ll := {| lumberjack.Filename := config.LogFileName conf;
               lumberjack.MaxSize := config.LogFileSizeCappingInMBs conf;
               lumberjack.MaxBackups := config.MaxLogBackupsCount conf;
               lumberjack.MaxAge := config.MaxOldLogRetentionInDays conf;
               lumberjack.Compress :=
                 config.OldLogsCompressionRequired conf |} in
  registered_sinks (snd r) =
    registered_sinks t ++
    (if String.eqb (TrimSpace (config.LogFileName conf)) "" then [] else [ll]) /\
  (exists rest,
    snd r =
      t ++ (if String.eqb (TrimSpace (config.LogFileName conf)) "" then []
            else [RegisterSink "lumberjack" ll])
        ++ BuildCall (service_config TrimSpace conf)
             (build_error (service_config TrimSpace conf)) :: rest /\
    registered_sinks rest = [] /\ build_calls rest = []) /\
  sink_in_force (snd r) =
    match sink_in_force t with
    | Some first => Some first
    | None =>
        if String.eqb (TrimSpace (config.LogFileName conf)) "" then None
        else Some ll
    end.
Proof.
  intros r ll. subst r. rewrite NewService_run.
  unfold service_prefix, has_log_file. fold ll.
  destruct (build_error (service_config TrimSpace conf));
    destruct (String.eqb (TrimSpace (config.LogFileName conf)) "");
    cbn [negb snd app]; (split; [| split]);
    try (rewrite ?registered_sinks_app; cbn; rewrite ?app_nil_r; reflexivity);
    try (eexists; split; [reflexivity | split; reflexivity]);
    rewrite sink_in_force_app; destruct (sink_in_force t); reflexivity.
Qed.

(** X6: on a [config.Logger] value [NewService] returns, calls [Build]
    exactly once, and calls [Sync] exactly once, as its last action, on the
    sugared logger it returns. *)
Theorem NewService_builds_once_syncs_last (conf : config.Logger)
    (t : list Event) :
  let cfg := service_config TrimSpace conf in
  let r := NewService TrimSpace build_error (VLogger conf) t in
  exists sl,
    fst r = Ok sl /\
    build_calls (snd r) = build_calls t ++ [(cfg, build_error cfg)] /\
    sync_calls (snd r) = sync_calls t ++ [logger sl] /\
    exists before, snd r = t ++ before ++ [SyncCall (logger sl)].
Proof.
  intros cfg r. subst r. rewrite NewService_run. fold cfg.
  destruct (build_error cfg) eqn:Hb; eexists; cbn [fst snd];
    (split; [reflexivity |]);
    rewrite !build_calls_app, !sync_calls_app, build_calls_service_prefix;
    fold cfg; rewrite Hb; cbn.
  - split; [rewrite ?app_nil_r; reflexivity |]. split.
    + unfold service_prefix. destruct (has_log_file _ _); reflexivity.
    + exists (service_prefix TrimSpace build_error conf ++
              [LogCall (zap.Sugar zap.Example) ErrorLevel
                 [VString "Was unable to create logger file!"];
               LogCall (zap.Sugar zap.Example) ErrorLevel
                 [VString "Was unable to create desired logger, running on simple logger!"]]).
      rewrite <- !app_assoc. reflexivity.
  - split; [rewrite ?app_nil_r; reflexivity |]. split.
    + unfold service_prefix. destruct (has_log_file _ _); reflexivity.
    + exists (service_prefix TrimSpace build_error conf ++
              [LogCall (zap.Sugar (zap.Built cfg)) ErrorLevel
                 [VString "Was unable to create logger file!"]]).
      rewrite <- !app_assoc. reflexivity.
Qed.

(** X7: the level of the configuration [NewService] hands to [Build] is
    [GetLevel] of the configured level string: it is never [DPanicLevel]
    ("DPANIC" gives [PanicLevel]), and a string outside the seven names,
    lower-case names among them, gives [InfoLevel]. *)
Theorem NewService_level (conf : config.Logger) (t : list Event) :
  let cfg := service_config TrimSpace conf in
  let r := NewService TrimSpace build_error (VLogger conf) t in
  map (fun b => zap.Level_ (fst b)) (build_calls (snd r)) =
    map (fun b => zap.Level_ (fst b)) (build_calls t)
    ++ [GetLevel (config.LoggingLevel conf)] /\
  zap.Level_ cfg <> DPanicLevel /\
  (config.LoggingLevel conf = "DPANIC" -> zap.Level_ cfg = PanicLevel) /\
  (~ In (config.LoggingLevel conf) level_names -> zap.Level_ cfg = InfoLevel).
Proof.
  intros cfg r. subst r.
  assert (Hlvl : zap.Level_ cfg = GetLevel (config.LoggingLevel conf)).
  { unfold cfg, service_config. destruct (negb _); reflexivity. }
  split; [| split; [| split]].
  - rewrite NewService_run. fold cfg.
    destruct (build_error cfg); cbn [snd];
      rewrite !build_calls_app, build_calls_service_prefix, map_app;
      fold cfg; cbn; rewrite Hlvl, ?app_nil_r; reflexivity.
  - rewrite Hlvl.
    destruct (GetLevel_cases (config.LoggingLevel conf))
      as [[_ G] | [[_ G] | [[_ G] | [[_ G] | [[_ G] | [[_ G] | [[_ G] | [_ G]]]]]]]];
      rewrite G; discriminate.
  - intros Hd. rewrite Hlvl, Hd. reflexivity.
  - intros Hout. rewrite Hlvl.
    destruct (GetLevel_cases (config.LoggingLevel conf))
      as [[E G] | [[E G] | [[E G] | [[E G] | [[E G] | [[E G] | [[E G] | [E G]]]]]]]];
      try (exfalso; apply Hout; rewrite E; simpl; tauto).
    exact G.
Qed.

(** [NewService] on a [config.Logger] value: the logger it returns. *)
Lemma NewService_logger (conf : config.Logger) (t : list Event) :
  let cfg := service_config TrimSpace conf in
  fst (NewService TrimSpace build_error (VLogger conf) t) =
  Ok {| logger :=
          {| zap.base := match build_error cfg with
                         | None => zap.Built cfg
                         | Some _ => zap.Example
                         end;
             zap.callerSkip := 1;
             zap.fields := [] |};
        log := match build_error cfg with
               | None => Some (zap.Built cfg)
               | Some _ => None
               end |}.
Proof.
  intros cfg. rewrite NewService_run. fold cfg.
  destruct (build_error cfg); reflexivity.
Qed.

(** X8: of the logger [NewService] returns, [GetZapLogger] is nil exactly
    when [Build] failed and otherwise the logger built from the
    configuration, without the caller skip; [GetSDLogger] is the sugared
    logger over that logger (over the example logger when [Build] failed)
    with one added caller skip and no fields; [GetLogger] is the logger
    itself. *)
Theorem NewService_accessors (conf : config.Logger) (t : list Event) :
  let cfg := service_config TrimSpace conf in
  exists sl,
    fst (NewService TrimSpace build_error (VLogger conf) t) = Ok sl /\
    (GetZapLogger sl = None <-> build_error cfg <> None) /\
    (build_error cfg = None -> GetZapLogger sl = Some (zap.Built cfg)) /\
    GetSDLogger sl =
      {| zap.base := match GetZapLogger sl with
                     | Some l => l
                     | None => zap.Example
                     end;
         zap.callerSkip := 1;
         zap.fields := [] |} /\
    standardLogger_GetLogger sl = sl.
Proof.
  intros cfg. eexists. split; [apply NewService_logger |].
  fold cfg. unfold GetZapLogger, GetSDLogger, standardLogger_GetLogger.
  cbn [log logger].
  destruct (build_error cfg) as [e |].
  - split; [split; [intros _; discriminate | reflexivity] |].
    split; [discriminate | split; reflexivity].
  - split; [split; [discriminate | intros H; contradiction H; reflexivity] |].
    split; [reflexivity | split; reflexivity].
Qed.

(** X9: on the logger [NewService] returns, the plain-logger methods
    [Errorz], [Fatalz], [Infoz], [Warnz] and [Debugz] go to the logger built
    from the configuration, each at its own level with message and fields
    unchanged; when [Build] failed that logger is nil and each of them
    panics, while the sugared [Info] still logs on the example logger. *)
Theorem NewService_plain_methods (conf : config.Logger) (t : list Event)
    (msg : string) (fs : list zap.Field) :
  let cfg := service_config TrimSpace conf in
  exists sl,
    fst (NewService TrimSpace build_error (VLogger conf) t) = Ok sl /\
    (build_error cfg = None ->
     Errorz sl msg fs = Ok (mkPlainCall (zap.Built cfg) ErrorLevel msg fs) /\
     Fatalz sl msg fs = Ok (mkPlainCall (zap.Built cfg) FatalLevel msg fs) /\
     Infoz sl msg fs = Ok (mkPlainCall (zap.Built cfg) InfoLevel msg fs) /\
     Warnz sl msg fs = Ok (mkPlainCall (zap.Built cfg) WarnLevel msg fs) /\
     Debugz sl msg fs = Ok (mkPlainCall (zap.Built cfg) DebugLevel msg fs)) /\
    (build_error cfg <> None ->
     (exists m, Errorz sl msg fs = Panic m) /\
     (exists m, Fatalz sl msg fs = Panic m) /\
     (exists m, Infoz sl msg fs = Panic m) /\
     (exists m, Warnz sl msg fs = Panic m) /\
     (exists m, Debugz sl msg fs = Panic m) /\
     forall args t',
       Info sl args t' =
       (Ok tt, t' ++ [LogCall {| zap.base := zap.Example;
                                 zap.callerSkip := 1;
                                 zap.fields := [] |} InfoLevel args])).
Proof.
  intros cfg. eexists. split; [apply NewService_logger |].
  fold cfg. unfold Errorz, Fatalz, Infoz, Warnz, Debugz, plain_log, Info.
  cbn [log logger].
  destruct (build_error cfg) as [e |].
  - split; [discriminate |]. intros _.
    repeat split; try (eexists; reflexivity).
  - split; [| intros H; contradiction H; reflexivity].
    intros _. repeat split.
Qed.

(** X10: [Error] on the logger [NewService] returns, with a non-empty
    argument list: when the last argument is an error whose [Error()]
    panics, so does the call, with nothing logged; otherwise the one call
    goes to the sugared logger over the built logger (the example logger
    when [Build] failed) with caller skip 1 and the single field
    [response_message], which holds the message of a final error argument
    and "unknown" otherwise. *)
Theorem NewService_then_Error (conf : config.Logger) (t : list Event)
    (front : list value) (x : value) :
  let cfg := service_config TrimSpace conf in
  exists sl t1,
    NewService TrimSpace build_error (VLogger conf) t = (Ok sl, t1) /\
    match as_error x with
    | Some (Panic msg) => Error sl (front ++ [x]) t1 = (Panic msg, t1)
    | checked =>
        fst (Error sl (front ++ [x]) t1) = Ok tt /\
        log_calls (snd (Error sl (front ++ [x]) t1)) =
        log_calls t1 ++
        [( {| zap.base := match build_error cfg with
                          | None => zap.Built cfg
                          | Some _ => zap.Example
                          end;
              zap.callerSkip := 1;
              zap.fields := [response_message
                               match checked with
                               | Some (Ok m) => m
                               | _ => "unknown"
                               end] |},
           ErrorLevel,
           match checked with
           | Some (Ok m) => front ++ [VString " "; VString m]
           | _ => front ++ [x]
           end )]
    end.
Proof.
  intros cfg.
  pose proof (NewService_logger conf t) as Hsl. cbv zeta in Hsl. fold cfg in Hsl.
  destruct (NewService TrimSpace build_error (VLogger conf) t) as [res t1].
  cbn [fst] in Hsl. subst res.
  eexists _, t1. split; [reflexivity |].
  rewrite Error_run.
  destruct (as_error x) as [[m | msg] |]; cbn [fst snd]; try reflexivity;
    (split; [reflexivity |]); rewrite log_calls_app; reflexivity.
Qed.

End ServiceFacts.

(** Two configurations that differ in every rotation setting, with no file. *)
Lemma NewService_rotation_only_in_sink_witness :
  NewService trim_ascii_space (fun _ => None)
    (VLogger (config.mkLogger "  " "WARN" 100 3 28 true)) [] =
  NewService trim_ascii_space (fun _ => None)
    (VLogger (config.mkLogger "  " "WARN" 1 0 0 false)) [].
Proof.
  apply (NewService_rotation_only_in_sink trim_ascii_space (fun _ => None)
           (config.mkLogger "  " "WARN" 100 3 28 true)
           (config.mkLogger "  " "WARN" 1 0 0 false) [] eq_refl eq_refl).
  reflexivity.
Defined.

(** A lower-case level name: the built configuration logs from [InfoLevel]. *)
Lemma NewService_level_witness :
  zap.Level_ (service_config trim_ascii_space
                (config.mkLogger "" "debug" 0 0 0 false)) = InfoLevel.
Proof.
  apply (NewService_level trim_ascii_space (fun _ => None)
           (config.mkLogger "" "debug" 0 0 0 false) []).
  vm_compute. intros H.
  repeat (destruct H as [H | H]; [discriminate H |]). exact H.
Defined.

(** [Build] fails on every configuration: [Errorz] panics. *)
Lemma NewService_plain_methods_witness :
  exists sl,
    fst (NewService trim_ascii_space (fun _ => Some "open /var/log: denied")
           (VLogger (config.mkLogger "/var/log/app.log" "INFO" 10 1 1 false))
           []) = Ok sl /\
    exists m, Errorz sl "started" [] = Panic m.
Proof.
  destruct (NewService_plain_methods trim_ascii_space
              (fun _ => Some "open /var/log: denied")
              (config.mkLogger "/var/log/app.log" "INFO" 10 1 1 false)
              [] "started" []) as (sl & Hsl & _ & Hfail).
  exists sl. split; [exact Hsl |].
  apply Hfail. discriminate.
Defined.

(** [Build] succeeds: the plain logger is the built one. *)
Lemma NewService_accessors_witness :
  exists sl,
    fst (NewService trim_ascii_space (fun _ => None)
           (VLogger (config.mkLogger "" "INFO" 0 0 0 false)) []) = Ok sl /\
    GetZapLogger sl =
    Some (zap.Built (service_config trim_ascii_space
                       (config.mkLogger "" "INFO" 0 0 0 false))).
Proof.
  destruct (NewService_accessors trim_ascii_space (fun _ => None)
              (config.mkLogger "" "INFO" 0 0 0 false) [])
    as (sl & Hsl & _ & Hok & _).
  exists sl. split; [exact Hsl | apply Hok; reflexivity].
Defined.

(** ** The process-wide logger *)

(** X11: after any sequence of [SetLogger] calls [GetLogger] returns the
    pointer of the last call (nil if that was nil), whatever was set
    before; with no call it returns what the variable held, nil at start. *)
Theorem GetLogger_last_SetLogger (ls : list (option standardLogger))
    (loggerPointer : option standardLogger) :
  GetLogger (set_loggers ls loggerPointer) = last ls loggerPointer /\
  (forall l, GetLogger (set_loggers (ls ++ [l]) loggerPointer) = l) /\
  GetLogger (set_loggers [] None) = None.
Proof.
  assert (H : forall ls g, GetLogger (set_loggers ls g) = last ls g).
  { clear. induction ls as [| l ls IH]; intros g; [reflexivity |].
    unfold set_loggers. cbn [fold_left]. fold (set_loggers ls (SetLogger l g)).
    rewrite IH. unfold SetLogger.
    destruct ls as [| l' ls']; [reflexivity |].
    clear. revert l'. induction ls' as [| l2 ls2 IH2]; intros l'; [reflexivity |].
    change (last (l' :: l2 :: ls2) l) with (last (l2 :: ls2) l).
    change (last (l :: l' :: l2 :: ls2) g) with (last (l2 :: ls2) g).
    specialize (IH2 l2). cbn [last] in IH2 |- *. exact IH2. }
  split; [apply H |]. split; [| reflexivity].
  intros l. rewrite H. apply last_last.
Qed.

(** ** The order of returns *)






(** ** What the worker writes *)

Lemma only_file_app (ws1 ws2 : list (sink_target * bytes)) :
  only_file (ws1 ++ ws2) = only_file ws1 ++ only_file ws2.
Proof.
  induction ws1 as [| [[| l] p] ws1 IH]; cbn; rewrite ?IH; reflexivity.
Qed.

Lemma only_stdout_app (ws1 ws2 : list (sink_target * bytes)) :
  only_stdout (ws1 ++ ws2) = only_stdout ws1 ++ only_stdout ws2.
Proof.
  induction ws1 as [| [[| l] p] ws1 IH]; cbn; rewrite ?IH; reflexivity.
Qed.

Lemma only_file_both_sinks (l : lumberjack.Logger) (ps : list bytes) :
  only_file (flat_map (both_sinks l) ps) = ps.
Proof.
  induction ps as [| p ps IH]; [reflexivity |].
  cbn. rewrite IH. reflexivity.
Qed.

Lemma in_both_sinks (l : lumberjack.Logger) (ps : list bytes)
    (target : sink_target) (p : bytes) :
  In (target, p) (flat_map (both_sinks l) ps) ->
  In p ps /\ (target = ToStdout \/ target = ToFile l).
Proof.
  induction ps as [| q ps IH]; [intros [] |].
  cbn. intros [H | [H | H]].
  - injection H as <- <-. auto.
  - injection H as <- <-. auto.
  - destruct (IH H) as [Hin Ht]. auto.
Qed.

(** X13: the worker writes nothing but what was passed to [Write], each
    buffer once to standard output and then once to the file sink of
    [NewBufwriter], in call order and never ahead of the calls; the file
    sink receives the same buffers as standard output and is behind it by
    at most one. *)
Theorem worker_writes_only_what_was_called (max_chan_cap n : Z) (logFile : string)
    (c : writer) :
  reachable max_chan_cap n logFile c ->
  let l := default_sink logFile in
  let h := history c in
  (exists rest, flat_map (both_sinks l) (called h) = io_writes h ++ rest) /\
  (exists ahead, stdout_writes h = only_file (io_writes h) ++ ahead /\
                 (List.length ahead <= 1)%nat) /\
  (forall target p, In (target, p) (io_writes h) ->
     In p (called h) /\ (target = ToStdout \/ target = ToFile l)).
Proof.
  intros Hreach l h.
  destruct (reachable_inv _ _ _ _ Hreach) as (_ & k & I).
  destruct (inv_io _ _ _ I) as (done & Hrecv & Hwr).
  pose proof (inv_fifo _ _ _ I) as Hfifo.
  fold h in Hrecv, Hwr, Hfifo. fold l in Hwr.
  assert (Hprefix : exists rest,
            flat_map (both_sinks l) (called h) = io_writes h ++ rest).
  { exists (match k with
            | AtStdoutWrite p => both_sinks l p
            | AtFileWrite p => [(ToFile l, p)]
            | AtRange | Parked => []
            end ++ flat_map (both_sinks l) (qbuf c ++ map snd (sendq c))).
    rewrite Hfifo, Hrecv, Hwr, !flat_map_app.
    destruct k; cbn [in_hand half_done flat_map both_sinks app];
      rewrite ?app_nil_r, <- ?app_assoc; reflexivity. }
  split; [exact Hprefix |]. split.
  - rewrite stdout_writes_io, Hwr, only_stdout_app, only_file_app,
      only_stdout_both_sinks, only_file_both_sinks.
    destruct k; cbn; rewrite ?app_nil_r.
    + exists []. split; [rewrite app_nil_r; reflexivity | cbn; lia].
    + exists []. split; [rewrite app_nil_r; reflexivity | cbn; lia].
    + exists []. split; [rewrite app_nil_r; reflexivity | cbn; lia].
    + exists [p]. split; [reflexivity | cbn; lia].
  - intros target p Hin. destruct Hprefix as (rest & Hrest).
    apply (in_both_sinks l (called h) target p).
    rewrite Hrest. apply in_or_app. left. exact Hin.
Qed.

(** A run in which the worker stands between its two writes. *)
Lemma worker_writes_only_what_was_called_witness :
  let c0 := go_worker (default_sink "app.log")
              {| qcap := 2; qbuf := []; sendq := []; recvq := [];
                 workers := []; ncalls := 0; history := [] |} in
  let c := run [DoWrite [x61]; DoWrite [x62]; DoWorker 0 IoOk;
                DoWorker 0 (IoErr "broken pipe")] c0 in
  exists ahead, stdout_writes (history c) =
                only_file (io_writes (history c)) ++ ahead /\
                (List.length ahead <= 1)%nat.
Proof.
  intros c0 c.
  assert (Hreach : reachable runtime_max_chan_cap 2 "app.log" c).
  { exists c0, [DoWrite [x61]; DoWrite [x62]; DoWorker 0 IoOk;
                DoWorker 0 (IoErr "broken pipe")].
    split; reflexivity. }
  exact (proj1 (proj2 (worker_writes_only_what_was_called runtime_max_chan_cap 2 "app.log" c
                         Hreach))).
Defined.

Lemma io_writes_forget (h : list wevent) :
  io_writes (map forget_outcome h) = io_writes h.
Proof.
  induction h as [| e h IH]; [reflexivity |].
  destruct e; cbn; rewrite ?IH; reflexivity.
Qed.

Lemma received_forget (h : list wevent) :
  received (map forget_outcome h) = received h.
Proof.
  induction h as [| e h IH]; [reflexivity |].
  destruct e; cbn; rewrite ?IH; reflexivity.
Qed.

(** X14: no write is retried or skipped because one failed: two runs of the
    same calls and worker steps that differ only in the outcomes of the
    writes perform the same writes in the same order, receive the same
    buffers and leave the worker at the same place. *)
Theorem writes_do_not_depend_on_outcomes (c : writer)
    (s1 s2 : list action) :
  map calm s1 = map calm s2 ->
  io_writes (history (run s1 c)) = io_writes (history (run s2 c)) /\
  received (history (run s1 c)) = received (history (run s2 c)) /\
  workers (run s1 c) = workers (run s2 c) /\
  recvq (run s1 c) = recvq (run s2 c).
Proof.
  intros Hsame.
  assert (Hforget : forget (run s1 c) = forget (run s2 c))
    by (rewrite !forget_run, Hsame; reflexivity).
  split; [| split; [| split]].
  - rewrite <- (io_writes_forget (history (run s1 c))).
    rewrite <- (io_writes_forget (history (run s2 c))).
    change (io_writes (history (forget (run s1 c))) =
            io_writes (history (forget (run s2 c)))).
    rewrite Hforget. reflexivity.
  - rewrite <- (received_forget (history (run s1 c))).
    rewrite <- (received_forget (history (run s2 c))).
    change (received (history (forget (run s1 c))) =
            received (history (forget (run s2 c)))).
    rewrite Hforget. reflexivity.
  - change (workers (forget (run s1 c)) = workers (forget (run s2 c))).
    rewrite Hforget. reflexivity.
  - change (recvq (forget (run s1 c)) = recvq (forget (run s2 c))).
    rewrite Hforget. reflexivity.
Qed.

(** The same schedule with a failing standard output and with none. *)
Lemma writes_do_not_depend_on_outcomes_witness :
  let c0 := go_worker (default_sink "app.log")
              {| qcap := 1; qbuf := []; sendq := []; recvq := [];
                 workers := []; ncalls := 0; history := [] |} in
  let failing := [DoWrite [x61]; DoWorker 0 IoOk;
                  DoWorker 0 (IoErr "broken pipe");
                  DoWorker 0 (IoErr "disk full"); DoWorker 0 IoOk] in
  let fine := [DoWrite [x61]; DoWorker 0 IoOk; DoWorker 0 IoOk;
               DoWorker 0 IoOk; DoWorker 0 IoOk] in
  io_writes (history (run failing c0)) = io_writes (history (run fine c0)).
Proof.
  intros c0 failing fine.
  apply (writes_do_not_depend_on_outcomes c0 failing fine).
  reflexivity.
Defined.



(** ** Every call returns *)






(** ** The waiting worker *)

(** The event a worker step adds when the worker is at one of its writes. *)
Lemma worker_step_at_write (l : lumberjack.Logger) (p : bytes)
    (c : writer) (o : io_outcome) :
  (writer_inv l (AtStdoutWrite p) c ->
   history (worker_step 0 o c) = history c ++ [StdoutWrite 0 p o]) /\
  (writer_inv l (AtFileWrite p) c ->
   history (worker_step 0 o c) = history c ++ [FileWrite 0 l p o]).
Proof.
  split; intros I; unfold worker_step; rewrite (inv_worker _ _ _ I);
    reflexivity.
Qed.

(** X17: the worker waits in its receive only when every buffer passed to
    [Write] has been written to both sinks and nothing is queued or
    blocked; a call of [Write] then returns at once, whatever the capacity,
    and the worker's next two steps write that buffer to standard output
    and then to the file, the second also when the first failed. *)
Theorem Write_to_waiting_worker (max_chan_cap n : Z) (logFile : string) (c : writer)
    (p : bytes) (o1 o2 : io_outcome) :
  reachable max_chan_cap n logFile c ->
  recvq c <> [] ->
  let l := default_sink logFile in
  let id := ncalls c in
  (qbuf c = [] /\ sendq c = [] /\
   io_writes (history c) = flat_map (both_sinks l) (called (history c))) /\
  history (run [DoWrite p; DoWorker 0 o1; DoWorker 0 o2] c) =
    history c ++ [Call id p; Recv 0 p; Return id (len p) None;
                  StdoutWrite 0 p o1; FileWrite 0 l p o2].
Proof.
  intros Hreach Hrq l id.
  destruct (reachable_inv _ _ _ _ Hreach) as (_ & k & I).
  assert (Hk : k = Parked).
  { rewrite (inv_recvq _ _ _ I) in Hrq.
    destruct k; try reflexivity; contradiction Hrq; reflexivity. }
  subst k.
  destruct (inv_parked _ _ _ I eq_refl) as [Hq Hs].
  split.
  - split; [exact Hq |]. split; [exact Hs |].
    destruct (inv_io _ _ _ I) as (done & Hrecv & Hwr).
    rewrite (inv_fifo _ _ _ I), Hq, Hs, Hrecv, Hwr. cbn.
    rewrite !app_nil_r. reflexivity.
  - pose proof (Write_inv _ _ _ p I) as I1. cbn iota in I1.
    cbn [run step].
    destruct (Write_cases c p) as (_ & [H | [H | H]]).
    + destruct H as (w & parked & Hrq' & _ & _ & _ & _ & Hh).
      rewrite (inv_recvq _ _ _ I) in Hrq'. injection Hrq' as <- <-.
      pose proof (worker_step_inv _ _ _ o1 I1) as I2.
      cbn [after_worker_step] in I2.
      rewrite (proj2 (worker_step_at_write _ p _ o2) I2).
      rewrite (proj1 (worker_step_at_write _ p _ o1) I1).
      rewrite Hh, <- !app_assoc. reflexivity.
    + destruct H as (Hrq' & _). contradiction.
    + destruct H as (Hrq' & _). contradiction.
Qed.

(** A writer without buffer whose worker has parked, and a failing
    standard output. *)
Lemma Write_to_waiting_worker_witness :
  let c0 := go_worker (default_sink "app.log")
              {| qcap := 0; qbuf := []; sendq := []; recvq := [];
                 workers := []; ncalls := 0; history := [] |} in
  let c := run [DoWorker 0 IoOk] c0 in
  io_writes (history (run [DoWrite [x61]; DoWorker 0 (IoErr "broken pipe");
                           DoWorker 0 IoOk] c)) =
  [(ToStdout, [x61]); (ToFile (default_sink "app.log"), [x61])].
Proof.
  intros c0 c.
  assert (Hreach : reachable runtime_max_chan_cap 0 "app.log" c).
  { exists c0, [DoWorker 0 IoOk]. split; reflexivity. }
  assert (Hrq : recvq c <> []) by discriminate.
  rewrite (proj2 (Write_to_waiting_worker runtime_max_chan_cap 0 "app.log" c [x61]
                    (IoErr "broken pipe") IoOk Hreach Hrq)).
  reflexivity.
Defined.
